(** * RMMZ-Plugins: composite bitmaps, mirrors, conditional faces, move-route transforms

    A shallow embedding of the algorithmic parts of the plugins:
    - [CompositeBitmaps]: the layer dictionaries, the circular-reference
      check, the composite cache and its invalidation, the flattening of
      layer lists and the save/load hooks (KC_CompositeBitmaps);
    - [Mirrors]: the wall-region cache and the wall-reflection scale
      (KC_Mirrors);
    - [ConditionalFaces]: the number-list parser (getSetFromNumList);
    - [MoveRouteTF]: the linear transform tween (KC_MoveRouteTF).

    JavaScript objects used as dictionaries and [Map]s are finite maps
    ([gmap]); arrays are lists; recursion that JavaScript bounds only by its
    call stack takes a [fuel] argument and returns [None] when it needs a
    deeper stack than [fuel]. *)

From Stdlib Require Import ZArith QArith Qabs Qminmax Lia Lqa Floats.
From Stdlib Require Import String Ascii DecimalString Sorted.
From stdpp Require Import gmap strings list fin_maps.

Local Open Scope Z_scope.
Local Open Scope string_scope.
Local Open Scope list_scope.
Local Open Scope stdpp_scope.

(* ===================================================================== *)
(** * Composite bitmaps *)
(* ===================================================================== *)

Module CompositeBitmaps.

(** The three shapes of layer-info object the plugin pushes:
    [{ filename, index }] for faces, [{ filename, sIndex, dIndex, _isBig }]
    for top-view characters and [{ filename }] for side-view battlers and
    pictures. *)
Inductive LayerInfo : Type :=
| FaceInfo (file : string) (index : Z)
| TvInfo (file : string) (sIndex dIndex : Z) (_isBig : bool)
| PlainInfo (file : string).

Definition filename (info : LayerInfo) : string :=
  match info with
  | FaceInfo f _ => f
  | TvInfo f _ _ _ => f
  | PlainInfo f => f
  end.

#[global] Instance LayerInfo_eq_dec : EqDecision LayerInfo.
Proof. solve_decision. Defined.

(** [$.faceLayers], [$.tvCharLayers], [$.svCharLayers], [$.picLayers]:
    objects associating a composite's file name to its array of layers.
    File names that are also properties of [Object.prototype] (such as
    ["constructor"]) are not treated apart. *)
Abbreviation LayerDict := (gmap string (list LayerInfo)).

(** ** isNotCircularRef

    [fuel] bounds the depth of the recursion; [layerInfos = None] is the
    JavaScript [undefined] that [layerInfosDict[layerFile]] yields for a
    name that is not a key. *)
Fixpoint isNotCircularRef (fuel : nat) (name : string)
    (layerInfos : option (list LayerInfo)) (layerInfosDict : LayerDict)
    : option bool :=
  match fuel with
  | O => None
  | S fuel' =>
    match layerInfos with
    | None => Some true
    | Some infos =>
      (fix loop (l : list LayerInfo) : option bool :=
         match l with
         | [] => Some true
         | info :: rest =>
           let layerFile := filename info in
           if String.eqb name layerFile then Some false
           else
             match isNotCircularRef fuel' name
                     (layerInfosDict !! layerFile) layerInfosDict with
             | None => None
             | Some false => Some false
             | Some true => loop rest
             end
         end) infos
    end
  end.

(** ** The reference graph of a dictionary *)

(** [refs dict a b]: composite [a] has a layer whose file is [b]. *)
Definition refs (dict : LayerDict) (a b : string) : Prop :=
  exists infos, dict !! a = Some infos /\ b ∈ map filename infos.

(** [reaches dict a b]: a non-empty chain of references from [a] to [b]. *)
Inductive reaches (dict : LayerDict) : string -> string -> Prop :=
| reaches_one a b : refs dict a b -> reaches dict a b
| reaches_step a b c : refs dict a b -> reaches dict b c -> reaches dict a c.

Definition has_cycle (dict : LayerDict) : Prop :=
  exists a, reaches dict a a.

(** ** The plugin's state *)

(** A [Composite_Bitmap] object.  [bmp_id] is the identity of the JavaScript
    object (two bitmaps are the same object exactly when their ids agree);
    [_images] is filled by the constructor with the file names of the layer
    list the bitmap was built from.  Pixel contents are not modelled. *)
Record Composite_Bitmap : Type := mkBitmap {
  bmp_id : nat;
  _images : list string
}.

(** A cache entry [{ bitmap, config }]. *)
Record CacheEntry : Type := mkEntry {
  bitmap : Composite_Bitmap;
  config : string
}.

Inductive LayerType : Type := Face | TopView | SideView | Picture.

Definition FACE_PREFIX : string := "fc".
Definition TOP_VIEW_PREFIX : string := "tv".
Definition SIDE_VIEW_PREFIX : string := "sv".
Definition PICTURE_PREFIX : string := "pc".

Definition prefixOf (ty : LayerType) : string :=
  match ty with
  | Face => FACE_PREFIX
  | TopView => TOP_VIEW_PREFIX
  | SideView => SIDE_VIEW_PREFIX
  | Picture => PICTURE_PREFIX
  end.

(** The namespace object [$] ([KCDev.CompositeBitmaps]), with the console
    ([console.error] lines, oldest first) and the allocator of bitmap
    identities. *)
Record State : Type := mkState {
  faceLayers : LayerDict;
  tvCharLayers : LayerDict;
  svCharLayers : LayerDict;
  picLayers : LayerDict;
  cache : gmap string CacheEntry;
  nextBitmap : nat;
  console : list string
}.

Definition initialState : State :=
  mkState ∅ ∅ ∅ ∅ ∅ 0 [].

Definition layersOf (ty : LayerType) (st : State) : LayerDict :=
  match ty with
  | Face => faceLayers st
  | TopView => tvCharLayers st
  | SideView => svCharLayers st
  | Picture => picLayers st
  end.

Definition setLayers (ty : LayerType) (d : LayerDict) (st : State) : State :=
  match ty with
  | Face =>
    mkState d (tvCharLayers st) (svCharLayers st) (picLayers st)
            (cache st) (nextBitmap st) (console st)
  | TopView =>
    mkState (faceLayers st) d (svCharLayers st) (picLayers st)
            (cache st) (nextBitmap st) (console st)
  | SideView =>
    mkState (faceLayers st) (tvCharLayers st) d (picLayers st)
            (cache st) (nextBitmap st) (console st)
  | Picture =>
    mkState (faceLayers st) (tvCharLayers st) (svCharLayers st) d
            (cache st) (nextBitmap st) (console st)
  end.

Definition setCache (c : gmap string CacheEntry) (st : State) : State :=
  mkState (faceLayers st) (tvCharLayers st) (svCharLayers st) (picLayers st)
          c (nextBitmap st) (console st).

Definition console_error (line : string) (st : State) : State :=
  mkState (faceLayers st) (tvCharLayers st) (svCharLayers st) (picLayers st)
          (cache st) (nextBitmap st) (console st ++ [line]).

(** ** invalidateCachedComposites

    Every entry whose key starts with [prefix] and whose bitmap lists
    [layerName] among its [_images] is destroyed and deleted. *)
Definition invalidated (layerName pre : string) (kv : string * CacheEntry) : Prop :=
  String.prefix pre kv.1 = true /\ layerName ∈ _images (bitmap kv.2).

#[global] Instance invalidated_dec layerName pre kv :
  Decision (invalidated layerName pre kv).
Proof. unfold invalidated. apply _. Defined.

Definition invalidateCachedComposites (layerName pre : string)
    (c : gmap string CacheEntry) : gmap string CacheEntry :=
  filter (fun kv => ~ invalidated layerName pre kv) c.

(** ** logCircularRef *)
Definition logCircularRef (source destination : string) (st : State) : State :=
  console_error
    ("Detected circular reference when trying to add " ++ source ++ " to "
       ++ destination ++ "!" ++ String (ascii_of_nat 10) "Ignoring layer...")
    st.

(** ** addFaceLayer, addTvLayer, addSvLayer, addPictureLayer

    The four functions share one body; they differ in the dictionary, the
    cache prefix and the layer-info object pushed.  The requests to refresh
    battle or map sprites that follow an accepted addition go to the engine
    and are not part of the state.  The result is [None] when the circular
    reference check needs a deeper stack than [fuel]. *)
Definition addLayer (fuel : nat) (ty : LayerType) (info : LayerInfo)
    (source destination : string) (st : State) : option State :=
  let dict1 :=
    <[destination := default [] (layersOf ty st !! destination)]> (layersOf ty st) in
  match isNotCircularRef fuel destination (dict1 !! destination) dict1 with
  | None => None
  | Some true =>
    let dict2 :=
      <[destination := default [] (dict1 !! destination) ++ [info]]> dict1 in
    Some (setCache
            (invalidateCachedComposites destination (prefixOf ty) (cache st))
            (setLayers ty dict2 st))
  | Some false => Some (logCircularRef source destination (setLayers ty dict1 st))
  end.

Definition addFaceLayer (fuel : nat) (source destination : string)
    (sourceIndex : Z) : State -> option State :=
  addLayer fuel Face (FaceInfo source sourceIndex) source destination.

Definition addSvLayer (fuel : nat) (source destination : string)
    : State -> option State :=
  addLayer fuel SideView (PlainInfo source) source destination.

Definition addPictureLayer (fuel : nat) (source destination : string)
    : State -> option State :=
  addLayer fuel Picture (PlainInfo source) source destination.

(** ** removeFaceLayers, removeSvLayers, removePictureLayers *)
Definition removeLayers (ty : LayerType) (name : string) (st : State) : State :=
  setCache (invalidateCachedComposites name (prefixOf ty) (cache st))
           (setLayers ty (delete name (layersOf ty st)) st).

Definition removeFaceLayers : string -> State -> State := removeLayers Face.
Definition removeSvLayers : string -> State -> State := removeLayers SideView.
Definition removePictureLayers : string -> State -> State := removeLayers Picture.

(** ** removeTvLayers

    With a destination index [>= 0] only the layers drawn onto that index
    are dropped (and the key with them when nothing is left); otherwise the
    whole entry goes.  Nothing happens for a name that is not a key. *)
Definition keepsIndex (index : Z) (info : LayerInfo) : bool :=
  match info with
  | TvInfo _ _ d _ => negb (Z.eqb d index)
  | _ => true
  end.

Definition removeTvLayers (key : string) (index : Z) (st : State) : State :=
  match tvCharLayers st !! key with
  | None => st
  | Some chArr =>
    let dict' :=
      if Z.leb 0 index then
        let kept := List.filter (keepsIndex index) chArr in
        if Nat.ltb (length kept) 1 then delete key (tvCharLayers st)
        else <[key := kept]> (tvCharLayers st)
      else delete key (tvCharLayers st) in
    setCache (invalidateCachedComposites key TOP_VIEW_PREFIX (cache st))
             (setLayers TopView dict' st)
  end.

(** ** Engine functions the plugin calls

    [ImageManager.isBigCharacter] and [JsonEx.stringify] belong to the
    engine; the model is parametric in them. *)
Section Engine.

Variable isBigCharacter : string -> bool.
Variable JsonEx_stringify : list LayerInfo -> string.

Definition addTvLayer (fuel : nat) (source destination : string)
    (sourceIndex destinationIndex : Z) : State -> option State :=
  addLayer fuel TopView
    (TvInfo source sourceIndex destinationIndex (isBigCharacter source))
    source destination.

(** ** setupComposite

    [compositeLoadFunc] builds the bitmap; building may itself load other
    images and so change the state, and it may fail to return. *)
Definition setupComposite (name : string) (layerInfos : list LayerInfo)
    (pre : string)
    (compositeLoadFunc : list LayerInfo -> State -> option (Composite_Bitmap * State))
    (st : State) : option (Composite_Bitmap * State) :=
  let config := JsonEx_stringify layerInfos in
  let key := String.append pre name in
  let build (st0 : State) :=
    match compositeLoadFunc layerInfos st0 with
    | None => None
    | Some (compBmp, st1) =>
      Some (compBmp, setCache (<[key := mkEntry compBmp config]> (cache st1)) st1)
    end in
  match cache st !! key with
  | Some cached =>
    if String.eqb (CompositeBitmaps.config cached) config
    then Some (bitmap cached, st)
    else build (setCache (delete key (cache st)) st)
  | None => build st
  end.

(** What an image loader hands back: a composite built by the plugin or a
    plain bitmap of the engine's own image manager. *)
Inductive Image : Type :=
| CompositeImage (b : Composite_Bitmap)
| EngineImage (ty : LayerType) (file : string).

(** The constructor of [Composite_Bitmap] followed by [_startLoading]: the
    object gets a fresh identity and the names of its layers, and every
    layer is requested from [loader] (the patched image manager).  What
    the load listeners do later ([_onLoad], the drawing) is not
    modelled. *)
Definition Composite_Bitmap_new
    (loader : string -> State -> option (Image * State))
    (layerInfos : list LayerInfo) (st : State)
    : option (Composite_Bitmap * State) :=
  let this := mkBitmap (nextBitmap st) (map filename layerInfos) in
  let st0 :=
    mkState (faceLayers st) (tvCharLayers st) (svCharLayers st) (picLayers st)
            (cache st) (S (nextBitmap st)) (console st) in
  let startLoading :=
    fix go (imgs : list string) (s : State) : option State :=
      match imgs with
      | [] => Some s
      | img :: rest =>
        match loader img s with
        | None => None
        | Some (_, s') => go rest s'
        end
      end in
  match startLoading (_images this) st0 with
  | None => None
  | Some st1 => Some (this, st1)
  end.

(** The patched [ImageManager.loadFace], [loadCharacter], [loadSvActor] and
    [loadPicture]: a name with layers is set up as a composite, any other
    name goes to the engine's loader. *)
Fixpoint ImageManager_load (fuel : nat) (ty : LayerType) (name : string)
    (st : State) : option (Image * State) :=
  match fuel with
  | O => None
  | S fuel' =>
    match layersOf ty st !! name with
    | None => Some (EngineImage ty name, st)
    | Some layerInfos =>
      match setupComposite name layerInfos (prefixOf ty)
              (Composite_Bitmap_new (ImageManager_load fuel' ty)) st with
      | None => None
      | Some (b, st') => Some (CompositeImage b, st')
      end
    end
  end.

Definition loadFace (fuel : nat) := ImageManager_load fuel Face.
Definition loadCharacter (fuel : nat) := ImageManager_load fuel TopView.
Definition loadSvActor (fuel : nat) := ImageManager_load fuel SideView.
Definition loadPicture (fuel : nat) := ImageManager_load fuel Picture.

End Engine.

(** ** recursivelyFlatten and flattenLayerInfos *)
Fixpoint recursivelyFlatten (fuel : nat) (layerInfos : list LayerInfo)
    (compList : LayerDict) (parentNames : gset string)
    : option (list LayerInfo) :=
  match fuel with
  | O => None
  | S fuel' =>
    (fix each (l : list LayerInfo) : option (list LayerInfo) :=
       match l with
       | [] => Some []
       | layerInfo :: rest =>
         let name := filename layerInfo in
         if decide (name ∈ parentNames) then each rest
         else
           match compList !! name with
           | Some listEntry =>
             match recursivelyFlatten fuel' listEntry compList
                     ({[name]} ∪ parentNames) with
             | None => None
             | Some sub =>
               match each rest with
               | None => None
               | Some newInfos => Some (sub ++ newInfos)
               end
             end
           | None =>
             match each rest with
             | None => None
             | Some newInfos => Some (layerInfo :: newInfos)
             end
           end
       end) layerInfos
  end.

Definition flattenLayerInfos (fuel : nat) (name : string)
    (compList : LayerDict) : option (list LayerInfo) :=
  match compList !! name with
  | Some layerInfos => recursivelyFlatten fuel layerInfos compList {[name]}
  | None => Some []
  end.

(** ** Save contents

    [contents.KCDev.CompositeBitmaps] holds the four dictionaries; in a file
    written by another version any of the properties may be missing. *)
Record SavedLayers : Type := mkSaved {
  saved_faceLayers : option LayerDict;
  saved_tvCharLayers : option LayerDict;
  saved_svCharLayers : option LayerDict;
  saved_picLayers : option LayerDict
}.

(** [contents.KCDev]: the entry of this plugin and those of other plugins of
    the same author, which are opaque here. *)
Record KCDevContents : Type := mkKCDev {
  CompositeBitmapsEntry : option SavedLayers;
  otherEntries : gmap string string
}.

(** The save object: what the engine's own [makeSaveContents] returns
    ([engineContents], opaque) and the [KCDev] property. *)
Record SaveContents : Type := mkContents {
  engineContents : gmap string string;
  KCDev : option KCDevContents
}.

(** The patched [DataManager.makeSaveContents]; [contents] is the object
    returned by the function it wraps. *)
Definition makeSaveContents (contents : SaveContents) (st : State)
    : SaveContents * State :=
  let kc := default (mkKCDev None ∅) (KCDev contents) in
  let saved :=
    mkSaved (Some (faceLayers st)) (Some (tvCharLayers st))
            (Some (svCharLayers st)) (Some (picLayers st)) in
  (mkContents (engineContents contents)
              (Some (mkKCDev (Some saved) (otherEntries kc))),
   setCache ∅ st).

(** The patched [DataManager.extractSaveContents]. *)
Definition extractSaveContents (contents : SaveContents) (st : State) : State :=
  let st' :=
    match KCDev contents with
    | Some kc =>
      match CompositeBitmapsEntry kc with
      | Some saved =>
        mkState (default ∅ (saved_faceLayers saved))
                (default ∅ (saved_tvCharLayers saved))
                (default ∅ (saved_svCharLayers saved))
                (default ∅ (saved_picLayers saved))
                (cache st) (nextBitmap st) (console st)
      | None => st
      end
    | None => st
    end in
  setCache ∅ st'.

(** ** The plugin commands that add several layers

    Each command takes the layers off the end of its argument array
    ([layerInfos.pop()]) until the array is empty, so the additions run
    from the last listed layer to the first.  [None] for the argument
    stands for a value that is not an array, for which nothing happens. *)
Record FaceLayerArg : Type := mkFaceLayerArg {
  arg_source : string;
  arg_sourceIndex : Z
}.

(** One addition after the other, stopping for good when one of them does
    not return. *)
Definition addEach {A : Type} (add : A -> State -> option State)
    (items : list A) (st : State) : option State :=
  foldl (fun acc item => acc ≫= add item) (Some st) items.

Definition addFaceLayers (fuel : nat) (layerInfos : option (list FaceLayerArg))
    (destination : string) (st : State) : option State :=
  match layerInfos with
  | None => Some st
  | Some infos =>
    addEach (fun info =>
               addFaceLayer fuel (arg_source info) destination
                            (arg_sourceIndex info))
            (reverse infos) st
  end.

Definition addSvLayers (fuel : nat) (layers : option (list string))
    (destination : string) (st : State) : option State :=
  match layers with
  | None => Some st
  | Some sources =>
    addEach (fun source => addSvLayer fuel source destination)
            (reverse sources) st
  end.

Definition addPictureLayers (fuel : nat) (layers : option (list string))
    (destination : string) (st : State) : option State :=
  match layers with
  | None => Some st
  | Some sources =>
    addEach (fun source => addPictureLayer fuel source destination)
            (reverse sources) st
  end.

(** [addTvLayers]: big characters have one cell, so their index is 0. *)
Definition addTvLayers (isBigCharacter : string -> bool) (fuel : nat)
    (layerInfos : option (list FaceLayerArg))
    (destination : string) (destinationIndex : Z) (st : State)
    : option State :=
  let destination_index :=
    if isBigCharacter destination then 0 else destinationIndex in
  match layerInfos with
  | None => Some st
  | Some infos =>
    addEach (fun layerInfo =>
               let source_index :=
                 if isBigCharacter (arg_source layerInfo) then 0
                 else arg_sourceIndex layerInfo in
               addTvLayer isBigCharacter fuel (arg_source layerInfo)
                          destination source_index destination_index)
            (reverse infos) st
  end.

(** ** Dependence of a cached bitmap on a composite *)




(** An addition was accepted when it logged nothing. *)
Definition accepted (st st' : State) : Prop := console st' = console st.

End CompositeBitmaps.

(* ===================================================================== *)
(** * Mirrors: wall regions and the wall reflection *)
(* ===================================================================== *)

Module Mirrors.

(** [$gameMap], as far as the wall reflection reads it.  [regionId] is the
    engine's [Game_Map.prototype.regionId]. *)
Record GameMap : Type := mkMap {
  mapId : Z;
  width : Z;
  height : Z;
  regionId : Z -> Z -> Z
}.

(** [KCDev.Mirrors.reflectWallPositions] ([null] until the first build) and
    [KCDev.Mirrors.currMapId]. *)
Record WallCache : Type := mkWallCache {
  reflectWallPositions : option (gmap Z (list Z));
  currMapId : Z
}.

Definition initialWallCache : WallCache := mkWallCache None (-1).

(** The values [n - 1, n - 2, ..., 0] a loop
    [for (let j = n - 1; j >= 0; j--)] runs through. *)
Fixpoint countdown (n : nat) : list Z :=
  match n with
  | O => []
  | S k => Z.of_nat k :: countdown k
  end.

Definition downFrom (n : Z) : list Z := countdown (Z.to_nat n).

Section Walls.

(** [KCDev.Mirrors.wallRegions], the plugin parameter "Wall Region IDs". *)
Variable wallRegions : gset Z.

(** The inner loop of [buildCurrentMapCache] for column [i]. *)
Definition buildColumn (map : GameMap) (i : Z)
    (regionMap : gmap Z (list Z)) : gmap Z (list Z) :=
  foldl
    (fun regionMap j =>
       if decide (regionId map i j ∈ wallRegions)
       then <[i := default [] (regionMap !! i) ++ [j]]> regionMap
       else regionMap)
    regionMap (downFrom (height map)).

Definition buildCurrentMapCache (map : GameMap) : gmap Z (list Z) :=
  foldl (fun regionMap i => buildColumn map i regionMap) ∅ (downFrom (width map)).

Definition refreshReflectWallCache (map : GameMap) (c : WallCache) : WallCache :=
  mkWallCache (Some (buildCurrentMapCache map)) (currMapId c).

(** [getWallY].  The answer is [None] when [reflectWallPositions] is still
    [null] at the lookup, where JavaScript throws a [TypeError]. *)
Definition getWallY (map : GameMap) (x y : Z) (c : WallCache)
    : option Z * WallCache :=
  let c1 :=
    if decide (currMapId c = mapId map) then c
    else mkWallCache (Some (buildCurrentMapCache map)) (mapId map) in
  match reflectWallPositions c1 with
  | None => (None, c1)
  | Some positions =>
    match positions !! x with
    | Some col =>
      match List.filter (fun yCoord => Z.leb yCoord y) col with
      | yFirst :: _ => (Some yFirst, c1)
      | [] => (Some (-1), c1)
      end
    | None => (Some (-1), c1)
    end
  end.

(** The cache is in step with the map: it was built for the map whose id it
    records. *)
Definition in_step (map : GameMap) (c : WallCache) : Prop :=
  currMapId c = mapId map ->
  reflectWallPositions c = Some (buildCurrentMapCache map).

(** Tile [(x, y)] of the map carries a wall region. *)
Definition wallTile (map : GameMap) (x y : Z) : Prop :=
  0 <= x < width map /\ 0 <= y < height map /\ regionId map x y ∈ wallRegions.

End Walls.

(** ** The wall reflection sprite

    JavaScript numbers are modelled as exact rationals: rounding is not
    modelled, and a division by zero, which JavaScript answers with an
    infinity or NaN, is [0] here. *)

Record Sprite : Type := mkSprite {
  visible : bool;
  opacity : Q;
  sx : Q;
  sy : Q;
  scale_x : Q;
  scale_y : Q;
  pivot_y : Q;
  angle : Q;
  _tileId : Z;
  _characterName : string
}.

(** The [Game_CharacterBase] behind a sprite.  [reflectWallOpacity] is
    [None] for [undefined]. *)
Record Character : Type := mkCharacter {
  cx : Z;
  cy : Z;
  _realY : Q;
  jumpHeight : Q;
  reflectWall : bool;
  reflectWallOpacity : option Q;
  isTransparent : bool;
  reflectWallXOffset : Q;
  reflectWallYOffset : Q
}.

(** The reflection settings of the map. *)
Record MapReflect : Type := mkMapReflect {
  map_reflectWall : bool;
  reflectMode : Z;
  tileHeight : Q;
  map_reflectWallXOffset : Q;
  map_reflectWallYOffset : Q
}.

Definition wallModes_perspective : Z := 0.
Definition wallModes_event : Z := 1.

(** The factor computed in pseudo-perspective mode. *)
Definition perspectiveScale (distToWall maxWallDistance : Q) : Q :=
  let scale := (1 - (distToWall - 1) / maxWallDistance)%Q in
  if Qlt_le_dec 1 scale then 1%Q
  else if Qlt_le_dec scale 0 then 0%Q
  else scale.

(** A number clamped into [[0, 1]], as the claim about the scale words it. *)
Definition clamp01 (q : Q) : Q := Qmax 0 (Qmin 1 q).

(** [updateReflectCommon]: position, scale, angle and pivot are copied from
    the character sprite (blend colour, tone and blend mode are not
    modelled). *)
Definition updateReflectCommon (this r : Sprite) : Sprite :=
  mkSprite (visible r) (opacity r) (sx this) (sy r)
           (scale_x this) (scale_y this) (pivot_y this) (angle this)
           (_tileId r) (_characterName r).

(** [handleReflectFrame]: a tile graphic is drawn unmirrored. *)
Definition handleReflectFrame (this r : Sprite) : Sprite :=
  if Z.ltb 0 (_tileId this) && String.eqb (_characterName this) (_characterName r)
  then mkSprite (visible r) (opacity r) (sx r) (sy r)
                (Qabs (scale_x r)) (scale_y r) (pivot_y r) (angle r)
                (_tileId this) (_characterName r)
  else r.

Definition setVisible (v : bool) (r : Sprite) : Sprite :=
  mkSprite v (opacity r) (sx r) (sy r) (scale_x r) (scale_y r) (pivot_y r)
           (angle r) (_tileId r) (_characterName r).

Section Reflection.

Variable wallRegions : gset Z.
Variable noReflectRegions : gset Z.
Variable maxWallDistance : Q.

(** The first value given to [r.visible]. *)
Definition wantsWallReflection (map : GameMap) (opts : MapReflect)
    (char : Character) : bool :=
  map_reflectWall opts && reflectWall char
  && negb (bool_decide (regionId map (cx char) (cy char) ∈ noReflectRegions))
  && match reflectWallOpacity char with
     | None => negb (isTransparent char)
     | Some o => negb (Qeq_bool o 0)
     end.

(** [Sprite_Character.prototype.updateReflectWall]: [this] is the character
    sprite, [r] its wall reflection ([this._reflectionWall]).  The result is
    the reflection sprite and the wall cache after the call. *)
Definition updateReflectWall (map : GameMap) (opts : MapReflect)
    (char : Character) (this r : Sprite) (c : WallCache)
    : option (Sprite * WallCache) :=
  if negb (wantsWallReflection map opts char)
  then Some (setVisible false r, c)
  else
    let r := updateReflectCommon this (setVisible true r) in
    match getWallY wallRegions map (cx char) (cy char) c with
    | (None, _) => None
    | (Some wallY, c') =>
      if Z.ltb wallY 0 then Some (setVisible false r, c')
      else
        let o := match reflectWallOpacity char with
                 | None => opacity this
                 | Some o => o
                 end in
        let distToWall := (_realY char - inject_Z wallY)%Q in
        let tileH := tileHeight opts in
        let xOff := (map_reflectWallXOffset opts + reflectWallXOffset char)%Q in
        let yOff := (map_reflectWallYOffset opts + reflectWallYOffset char)%Q in
        let r' :=
          if Z.eqb (reflectMode opts) wallModes_perspective then
            let scale := perspectiveScale distToWall maxWallDistance in
            mkSprite true o (sx r + xOff)%Q
              (sy this - tileH * distToWall - distToWall
               - jumpHeight char * scale * (1 # 10)
               - pivot_y r * (1 - scale) + yOff)%Q
              (- scale_x this * scale)%Q (scale_y this * scale)%Q
              (pivot_y r) (angle r) (_tileId r) (_characterName r)
          else
            mkSprite true o (sx r + xOff)%Q
              (sy this - tileH * distToWall * 2 + tileH
               - jumpHeight char + yOff)%Q
              (scale_x this * - 1)%Q (scale_y this)
              (pivot_y r) (angle r) (_tileId r) (_characterName r) in
        Some (handleReflectFrame this r', c')
    end.

End Reflection.

End Mirrors.

(* ===================================================================== *)
(** * Mirrors: the plugin commands that change a reflection *)
(* ===================================================================== *)

Module MirrorsCommands.

(** The reflection fields of a [Game_CharacterBase].  An opacity is [None]
    for [undefined]; the offsets are read through [|| 0], so a missing one
    is 0. *)
Record Game_Character : Type := mkChar {
  _reflectName : string;
  _reflectIndex : Z;
  _reflectFloor : bool;
  _reflectWall : bool;
  _reflectFloorOpacity : option Q;
  _reflectWallOpacity : option Q;
  _reflectFloorXOff : Q;
  _reflectFloorYOff : Q;
  _reflectWallXOff : Q;
  _reflectWallYOff : Q;
  _reflectRefreshRequested : bool
}.

(** The arguments of [changeEventReflect] and [changeActorReflect].  A
    field is [None] when the argument is not a number (or is the word
    [unchanged], for the two switches). *)
Record ChangeReflectArgs : Type := mkArgs {
  args_id : Z;
  args_character : string;
  args_index : option Z;
  args_reflectFloor : option bool;
  args_reflectWall : option bool;
  args_reflectFloorOpacity : option Q;
  args_reflectWallOpacity : option Q;
  args_reflectFloorXOffset : option Q;
  args_reflectFloorYOffset : option Q;
  args_reflectWallXOffset : option Q;
  args_reflectWallYOffset : option Q
}.

(** The array [convertChangeReflectArgs] returns. *)
Record ReflectValues : Type := mkValues {
  val_id : Z;
  val_character : string;
  val_index : Z;
  val_reflectFloor : bool;
  val_reflectWall : bool;
  val_reflectFloorOpacity : option Q;
  val_reflectWallOpacity : option Q;
  val_reflectFloorXOff : Q;
  val_reflectFloorYOff : Q;
  val_reflectWallXOff : Q;
  val_reflectWallYOff : Q
}.

Section Commands.

(** [String.prototype.trim]. *)
Variable trim : string -> string.

(** An opacity argument: -1 stands for [undefined]. *)
Definition opacityOf (v : Q) : option Q :=
  if Qeq_bool v (-1) then None else Some v.

(** [convertChangeReflectArgs].  Without a character a stand-in object
    answers; it has no [reflectWallOpacity], so asking it for one throws
    ([None]). *)
Definition convertChangeReflectArgs (char : option Game_Character)
    (args : ChangeReflectArgs) : option ReflectValues :=
  let reflectName := match char with Some ch => _reflectName ch | None => "" end in
  let reflectIndex := match char with Some ch => _reflectIndex ch | None => -1 end in
  let reflectFloor := match char with Some ch => _reflectFloor ch | None => false end in
  let reflectWall := match char with Some ch => _reflectWall ch | None => false end in
  let reflectFloorOpacity :=
    match char with Some ch => _reflectFloorOpacity ch | None => None end in
  let reflectFloorXOffset :=
    match char with Some ch => _reflectFloorXOff ch | None => 0%Q end in
  let reflectFloorYOffset :=
    match char with Some ch => _reflectFloorYOff ch | None => 0%Q end in
  let character :=
    if String.eqb (args_character args) "" then reflectName
    else args_character args in
  let index := default reflectIndex (args_index args) in
  let floor := default reflectFloor (args_reflectFloor args) in
  let wall := default reflectWall (args_reflectWall args) in
  let floorOpacity :=
    match args_reflectFloorOpacity args with
    | None => reflectFloorOpacity
    | Some v => opacityOf v
    end in
  let wallOpacity : option (option Q) :=
    match args_reflectWallOpacity args with
    | None =>
      match char with
      | Some ch => Some (_reflectWallOpacity ch)
      | None => None
      end
    | Some v => Some (opacityOf v)
    end in
  let floorXOff := default reflectFloorXOffset (args_reflectFloorXOffset args) in
  let floorYOff := default reflectFloorYOffset (args_reflectFloorYOffset args) in
  let wallXOff := default reflectFloorXOffset (args_reflectWallXOffset args) in
  let wallYOff := default reflectFloorYOffset (args_reflectWallYOffset args) in
  match wallOpacity with
  | None => None
  | Some wallOpacity =>
    Some (mkValues (args_id args) (trim character) index floor wall
                   floorOpacity wallOpacity floorXOff floorYOff wallXOff
                   wallYOff)
  end.

(** The setters [setEventReflect] and [setActorReflect] call on their
    target. *)
Definition applyReflect (v : ReflectValues) (target : Game_Character)
    : Game_Character :=
  mkChar (trim (val_character v)) (val_index v) (val_reflectFloor v)
         (val_reflectWall v) (val_reflectFloorOpacity v)
         (val_reflectWallOpacity v) (val_reflectFloorXOff v)
         (val_reflectFloorYOff v) (val_reflectWallXOff v)
         (val_reflectWallYOff v) true.

(** [setEventReflect], called by the interpreter of event [thisEventId],
    on the events of the map. *)
Definition setEventReflect (thisEventId : Z) (v : ReflectValues)
    (events : gmap Z Game_Character) : gmap Z Game_Character :=
  let eventId := if Z.eqb (val_id v) 0 then thisEventId else val_id v in
  match events !! eventId with
  | Some event => <[eventId := applyReflect v event]> events
  | None => events
  end.

(** The plugin command [changeEventReflect]; [None] when it throws. *)
Definition changeEventReflect (thisEventId : Z) (args : ChangeReflectArgs)
    (events : gmap Z Game_Character) : option (gmap Z Game_Character) :=
  match convertChangeReflectArgs (events !! args_id args) args with
  | None => None
  | Some v => Some (setEventReflect thisEventId v events)
  end.

(** The arguments of a command that names a target and leaves everything
    else as it is. *)
Definition unchangedArgs (id : Z) : ChangeReflectArgs :=
  mkArgs id "" None None None None None None None None None.

End Commands.

End MirrorsCommands.

(* ===================================================================== *)
(** * Conditional faces: the number-list parser *)
(* ===================================================================== *)

Module ConditionalFaces.

(** Strings are sequences of code units below 256.  The engine's numbers
    are modelled as exact integers: the loss of precision of JavaScript
    numbers beyond [2^53] is not modelled. *)

(** The characters that [\s] matches and that [parseInt] skips. *)
Definition isWhiteSpace (c : ascii) : bool :=
  let n := nat_of_ascii c in
  ((9 <=? n) && (n <=? 13) || (n =? 32) || (n =? 160))%nat.

(** [numList.replaceAll(/\s+/g, ' ')]; [inRun] tells that the previous
    character was white space. *)
Fixpoint collapseSpaces (inRun : bool) (s : string) : string :=
  match s with
  | EmptyString => EmptyString
  | String c rest =>
    if isWhiteSpace c then
      if inRun then collapseSpaces true rest
      else String " " (collapseSpaces true rest)
    else String c (collapseSpaces false rest)
  end.

(** [s.split(sep)] for a separator of one character. *)
Fixpoint split (sep : ascii) (s : string) : list string :=
  match s with
  | EmptyString => [EmptyString]
  | String c rest =>
    if Ascii.eqb c sep then EmptyString :: split sep rest
    else
      match split sep rest with
      | piece :: pieces => String c piece :: pieces
      | [] => [String c EmptyString]
      end
  end.

(** The value of a digit in radix 36. *)
Definition digitValue (c : ascii) : option Z :=
  let n := Z.of_nat (nat_of_ascii c) in
  if ((48 <=? n) && (n <=? 57))%Z then Some (n - 48)
  else if ((97 <=? n) && (n <=? 122))%Z then Some (n - 87)
  else if ((65 <=? n) && (n <=? 90))%Z then Some (n - 55)
  else None.

(** The value of the longest prefix of digits of the radix; [acc] is the
    value read so far, [None] before the first digit. *)
Fixpoint parseDigits (radix : Z) (acc : option Z) (s : string) : option Z :=
  match s with
  | EmptyString => acc
  | String c rest =>
    match digitValue c with
    | Some d =>
      if (d <? radix)%Z then parseDigits radix (Some (default 0 acc * radix + d)) rest
      else acc
    | None => acc
    end
  end.

Fixpoint trimStart (s : string) : string :=
  match s with
  | String c rest => if isWhiteSpace c then trimStart rest else s
  | EmptyString => EmptyString
  end.

(** [parseInt(s)] without a radix; [None] is [NaN].  Leading white space
    is skipped, a sign is read, a prefix [0x] or [0X] selects radix 16, and
    the longest run of digits that follows is the value. *)
Definition parseInt (s : string) : option Z :=
  let s1 := trimStart s in
  let '(sign, s2) :=
    match s1 with
    | String c rest =>
      if Ascii.eqb c "-" then (-1, rest)
      else if Ascii.eqb c "+" then (1, rest)
      else (1, s1)
    | EmptyString => (1, s1)
    end in
  let '(radix, s3) :=
    match s2 with
    | String c0 (String c1 rest) =>
      if Ascii.eqb c0 "0" && (Ascii.eqb c1 "x" || Ascii.eqb c1 "X")
      then (16, rest)
      else (10, s2)
    | _ => (10, s2)
    end in
  match parseDigits radix None s3 with
  | Some n => Some (sign * n)
  | None => None
  end.

(** A number is truthy when it is neither [NaN] nor zero. *)
Definition truthy (num : option Z) : bool :=
  match num with
  | Some n => negb (n =? 0)%Z
  | None => false
  end.

(** What one element of the list adds to the set; an element that adds
    nothing is reported on the console, which is not modelled. *)
Definition addNumStr (finalSet : gset Z) (numStr : string) : gset Z :=
  match split "-" numStr with
  | [_] =>
    match parseInt numStr with
    | Some num => if truthy (Some num) then finalSet ∪ {[num]} else finalSet
    | None => finalSet
    end
  | [part1; part2] =>
    match parseInt part1, parseInt part2 with
    | Some num1, Some num2 =>
      if truthy (Some num1) && truthy (Some num2) then
        let '(lo, hi) := if (num2 <? num1)%Z then (num2, num1) else (num1, num2) in
        finalSet ∪ list_to_set (seqZ lo (hi - lo + 1))
      else finalSet
    | _, _ => finalSet
    end
  | _ => finalSet
  end.

Definition tokens (numList : string) : list string :=
  split " " (collapseSpaces false numList).

Definition getSetFromNumList (numList : string) : gset Z :=
  foldl addNumStr ∅ (tokens numList).

(** ** The set as the claim words it *)








(** ** The conditions and the choice of a face *)

(** What the conditions read of an actor.  [states] holds the ids of
    [actor.states()]; the actor of a condition is taken to exist. *)
Record Game_Actor : Type := mkActor {
  actorId : Z;
  states : list Z;
  motionType : string;
  actorFaceName : string;
  actorFaceIndex : Z;
  _faceConditionEnabled : bool
}.

(** [$gameSwitches.value] and [$gameActors.actor]. *)
Record Game : Type := mkGame {
  gameSwitches : Z -> bool;
  gameActors : Z -> Game_Actor
}.

(** The objects pushed on [_conditions].  The comparison, [eval] and
    [function] conditions run script text; they are kept as the truth value
    they give in a game. *)
Inductive Condition : Type :=
| SvMotionCondition (actor : Z) (motion : string) (truthVal : bool)
| SwitchCondition (switchId : Z) (truthVal : bool)
| StateCondition (stateId : Z) (actor : Z) (truthVal : bool)
| StateSetCondition (stateset : gset Z) (actor : Z) (truthVal : bool)
| SwitchSetCondition (switches : list Z) (truthVal : bool)
| ScriptCondition (script : Game -> bool).

Definition isTrue (g : Game) (cond : Condition) : bool :=
  match cond with
  | SvMotionCondition actor motion truthVal =>
    Bool.eqb (String.eqb (motionType (gameActors g actor)) motion) truthVal
  | SwitchCondition switchId truthVal =>
    Bool.eqb (gameSwitches g switchId) truthVal
  | StateCondition stateId actor truthVal =>
    Bool.eqb
      (0 <? length (List.filter (fun state => Z.eqb stateId state)
                                (states (gameActors g actor))))%nat
      truthVal
  | StateSetCondition stateset actor truthVal =>
    existsb (fun state => Bool.eqb (bool_decide (state ∈ stateset)) truthVal)
            (states (gameActors g actor))
  | SwitchSetCondition switches truthVal =>
    existsb (fun switchId => Bool.eqb (gameSwitches g switchId) truthVal)
            switches
  | ScriptCondition script => script g
  end.

Record Face_Condition_Block : Type := mkBlock {
  block_actorId : Z;
  _conditions : list Condition
}.

Definition push (cond : Condition) (block : Face_Condition_Block)
    : Face_Condition_Block :=
  mkBlock (block_actorId block) (_conditions block ++ [cond]).

Definition addSvMotionCondition (motionName : string) (invert : bool)
    (block : Face_Condition_Block) : Face_Condition_Block :=
  push (SvMotionCondition (block_actorId block) motionName (negb invert)) block.

Definition addSwitchCondition (switchId : Z) (invert : bool)
    (block : Face_Condition_Block) : Face_Condition_Block :=
  push (SwitchCondition switchId (negb invert)) block.

Definition addStateCondition (stateId : Z) (invert : bool)
    (block : Face_Condition_Block) : Face_Condition_Block :=
  push (StateCondition stateId (block_actorId block) (negb invert)) block.

Definition addStateSetCondition (stateset : string) (invert : bool)
    (block : Face_Condition_Block) : Face_Condition_Block :=
  push (StateSetCondition (getSetFromNumList stateset) (block_actorId block)
                          (negb invert)) block.

Definition addSwitchSetCondition (switchset : string) (invert : bool)
    (block : Face_Condition_Block) : Face_Condition_Block :=
  push (SwitchSetCondition (elements (getSetFromNumList switchset))
                           (negb invert)) block.

Definition isAnyTrue (g : Game) (block : Face_Condition_Block) : bool :=
  match _conditions block with
  | [] => true
  | conds => existsb (isTrue g) conds
  end.

(** [_faceName] is the empty string when the list was made without a face
    name; [faceName] then gives the actor's own. *)
Record Face_Condition_List : Type := mkCondList {
  list_actorId : Z;
  _faceIndex : Z;
  _faceName : string;
  _conditionBlocks : list Face_Condition_Block
}.

Definition addConditionBlock (condBlock : Face_Condition_Block)
    (condList : Face_Condition_List) : Face_Condition_List :=
  mkCondList (list_actorId condList) (_faceIndex condList)
             (_faceName condList) (_conditionBlocks condList ++ [condBlock]).

Definition faceName (g : Game) (condList : Face_Condition_List) : string :=
  if String.eqb (_faceName condList) "" then
    actorFaceName (gameActors g (list_actorId condList))
  else _faceName condList.

Definition isAllConditionsTrue (g : Game) (condList : Face_Condition_List)
    : bool :=
  forallb (isAnyTrue g) (_conditionBlocks condList).

(** The face [drawActorFace] hands to [drawFace]: its file name and its
    index. *)
Definition drawActorFace (actorToCondList : gmap Z (list Face_Condition_List))
    (g : Game) (actor : Game_Actor) : string * Z :=
  let original := (actorFaceName actor, actorFaceIndex actor) in
  match actorToCondList !! actorId actor with
  | Some faceConditions =>
    if _faceConditionEnabled actor then
      match List.find (isAllConditionsTrue g) faceConditions with
      | Some condList => (faceName g condList, _faceIndex condList)
      | None => original
      end
    else original
  | None => original
  end.

(** ** [extractWrappers] *)

(** [s.indexOf(ch, pos)] for one character. *)
Fixpoint indexOf (s : string) (ch : ascii) (pos : nat) : option nat :=
  match s with
  | EmptyString => None
  | String c rest =>
    match pos with
    | O => if Ascii.eqb c ch then Some O else option_map S (indexOf rest ch O)
    | S p => option_map S (indexOf rest ch p)
    end
  end.

(** [s.replace(pattern, replacement)] for a string pattern: the first
    occurrence is replaced.  The replacement is taken as it is written (it
    holds no [$]). *)
Definition replace (pattern replacement s : string) : string :=
  match String.index 0 pattern s with
  | Some i =>
    String.append (String.substring 0 i s)
      (String.append replacement
         (String.substring (i + String.length pattern)
            (String.length s - (i + String.length pattern)) s))
  | None => s
  end.

(** [map.set(key, value)] on a [Map], kept in the order of insertion. *)
Fixpoint Map_set (key value : string) (m : list (string * string))
    : list (string * string) :=
  match m with
  | [] => [(key, value)]
  | (k, v) :: rest =>
    if String.eqb k key then (key, value) :: rest
    else (k, v) :: Map_set key value rest
  end.

(** A counter as JavaScript appends it to a string. *)
Definition numberToString (n : nat) : string :=
  NilEmpty.string_of_uint (Nat.to_uint n).

(** The inner loop: from [pos] on, until as many closing as opening
    characters were met; the position it stops at.  [None]: the recursion
    depth [fuel] did not suffice. *)
Fixpoint scanBlock (fuel : nat) (s : string) (openingChar closingChar : ascii)
    (pos closeCounter openCounter : nat) : option nat :=
  if (closeCounter <? openCounter)%nat then
    match fuel with
    | O => None
    | S fuel' =>
      let pos := S pos in
      if bool_decide (String.get pos s = Some openingChar) then
        scanBlock fuel' s openingChar closingChar pos closeCounter
                  (S openCounter)
      else if bool_decide (String.get pos s = Some closingChar) then
        scanBlock fuel' s openingChar closingChar pos (S closeCounter)
                  openCounter
      else
        scanBlock fuel' s openingChar closingChar pos closeCounter openCounter
    end
  else Some pos.

(** The outer loop, which fills the map. *)
Fixpoint extractLoop (fuel : nat) (s : string) (openingChar closingChar : ascii)
    (placeholderBase : string) (placeholderCounter pos : nat)
    (finalMap : list (string * string)) : option (list (string * string)) :=
  match fuel with
  | O => None
  | S fuel' =>
    match indexOf s openingChar pos with
    | None => Some finalMap
    | Some openIndex =>
      match scanBlock fuel' s openingChar closingChar openIndex 0 1 with
      | None => None
      | Some pos' =>
        let extractedText :=
          String.substring (S openIndex) (pos' - S openIndex) s in
        extractLoop fuel' s openingChar closingChar placeholderBase
          placeholderCounter pos'
          (Map_set (String.append placeholderBase
                      (numberToString placeholderCounter))
                   extractedText finalMap)
      end
    end
  end.

Record Extracted : Type := mkExtracted {
  newStr : string;
  blockMap : list (string * string)
}.

Definition extractWrappers (fuel : nat) (s : string)
    (openingChar closingChar : ascii)
    (placeholderBase placeholderPre placeholderPost : string)
    : option Extracted :=
  match extractLoop fuel s openingChar closingChar placeholderBase 0 0 [] with
  | None => None
  | Some finalMap =>
    Some (mkExtracted
            (foldl (fun finalStr entry =>
                      replace
                        (String openingChar
                           (String.append (snd entry)
                              (String closingChar EmptyString)))
                        (String.append placeholderPre
                           (String.append (fst entry) placeholderPost))
                        finalStr)
                   s finalMap)
            finalMap)
  end.

End ConditionalFaces.

(* ===================================================================== *)
(** * Move-route transforms: the tween *)
(* ===================================================================== *)

Module MoveRouteTF.

(** The arithmetic of JavaScript numbers that the tween uses.  The code is
    embedded once, over any such arithmetic; it runs on [binary64], and
    [exact] is the same code over the rationals, where nothing is
    rounded. *)
Class Number (N : Type) : Type := mkNumber {
  num_zero : N;
  num_one : N;
  num_add : N -> N -> N;
  num_sub : N -> N -> N;
  num_mul : N -> N -> N;
  num_div : N -> N -> N;
  num_lt : N -> N -> bool
}.

#[global] Instance exact : Number Q :=
  mkNumber Q 0%Q 1%Q Qplus Qminus Qmult Qdiv
           (fun a b => if Qlt_le_dec a b then true else false).

#[global] Instance binary64 : Number float :=
  mkNumber float 0%float 1%float PrimFloat.add PrimFloat.sub PrimFloat.mul
           PrimFloat.div PrimFloat.ltb.

(** One entry of [_moveRouteTransforms]. *)
Record Transform (N : Type) : Type := mkTransform {
  start : N;
  current : N;
  target : N;
  duration : N;
  time : N
}.

Arguments mkTransform {N} _ _ _ _ _.
Arguments start {N} _.
Arguments current {N} _.
Arguments target {N} _.
Arguments duration {N} _.
Arguments time {N} _.

(** The object [_moveRouteTransforms] of a character. *)
Record MoveRouteTransforms (N : Type) : Type := mkTransforms {
  em_scaleX : Transform N;
  em_scaleY : Transform N;
  em_transX : Transform N;
  em_transY : Transform N;
  em_rotation : Transform N
}.

Arguments mkTransforms {N} _ _ _ _ _.
Arguments em_scaleX {N} _.
Arguments em_scaleY {N} _.
Arguments em_transX {N} _.
Arguments em_transY {N} _.
Arguments em_rotation {N} _.

(** The fields of a [Game_CharacterBase] that the plugin reads or writes. *)
Record Game_CharacterBase (N : Type) : Type := mkCharacter {
  _moveRouteTransforms : MoveRouteTransforms N;
  _waitCount : N
}.

Arguments mkCharacter {N} _ _.
Arguments _moveRouteTransforms {N} _.
Arguments _waitCount {N} _.

Section Tween.

Context {N : Type} {num : Number N}.

Definition initialOffset : Transform N :=
  mkTransform num_zero num_zero num_zero num_one num_zero.

Definition easeFunc (transform : Transform N) : N :=
  num_add (start transform)
    (num_mul (num_sub (target transform) (start transform))
             (num_div (time transform) (duration transform))).

Definition needsUpdate (moveInfo : Transform N) : bool :=
  num_lt (time moveInfo) (duration moveInfo).

(** The callback of [updateTransformEx] for one transform. *)
Definition updateTransform (tf : Transform N) : Transform N :=
  if needsUpdate tf then
    let tf1 :=
      mkTransform (start tf) (current tf) (target tf) (duration tf)
                  (num_add (time tf) num_one) in
    mkTransform (start tf1) (easeFunc tf1) (target tf1) (duration tf1) (time tf1)
  else tf.


Definition setTarget (transform : Transform N) (start0 target0 duration0 : N)
    : Transform N :=
  mkTransform start0 (current transform) target0 duration0 num_zero.


(** [n] frames of [Game_CharacterBase.prototype.update]. *)
Fixpoint ticks (n : nat) (tf : Transform N) : Transform N :=
  match n with
  | O => tf
  | S k => updateTransform (ticks k tf)
  end.


Definition translationX (c : Game_CharacterBase N) : N :=
  current (em_transX (_moveRouteTransforms c)).
Definition translationY (c : Game_CharacterBase N) : N :=
  current (em_transY (_moveRouteTransforms c)).


(** [if (wait) this._waitCount = duration]. *)
Definition waitFor (wait : bool) (duration0 : N) (c : Game_CharacterBase N)
    : Game_CharacterBase N :=
  if wait then mkCharacter (_moveRouteTransforms c) duration0 else c.









Definition translateXTo (x duration0 : N) (wait : bool)
    (c : Game_CharacterBase N) : Game_CharacterBase N :=
  let em := _moveRouteTransforms c in
  waitFor wait duration0
    (mkCharacter
       (mkTransforms (em_scaleX em) (em_scaleY em)
                     (setTarget (em_transX em) (translationX c) x duration0)
                     (em_transY em) (em_rotation em))
       (_waitCount c)).


Definition translateYTo (y duration0 : N) (wait : bool)
    (c : Game_CharacterBase N) : Game_CharacterBase N :=
  let em := _moveRouteTransforms c in
  waitFor wait duration0
    (mkCharacter
       (mkTransforms (em_scaleX em) (em_scaleY em) (em_transX em)
                     (setTarget (em_transY em) (translationY c) y duration0)
                     (em_rotation em))
       (_waitCount c)).



Definition translateTo (x y duration0 : N) (wait : bool)
    (c : Game_CharacterBase N) : Game_CharacterBase N :=
  waitFor wait duration0
    (translateYTo y duration0 wait (translateXTo x duration0 wait c)).



End Tween.

End MoveRouteTF.

(* ===================================================================== *)
(** * Turn in place: the timers *)
(* ===================================================================== *)

Module TurnInPlace.

(** [KCDev.TurnInPlace.timeUntilMove] and
    [KCDev.TurnInPlace.stoppingCooldownTimer]. *)
Record Timers : Type := mkTimers {
  timeUntilMove : Z;
  stoppingCooldownTimer : Z
}.

(** What the plugin reads of the player: [direction()],
    [getInputDirection()] and [isMoving()]. *)
Record Game_Player : Type := mkPlayer {
  direction : Z;
  getInputDirection : Z;
  isMoving : bool
}.

(** [setDirection] of the engine, for a player whose direction is not
    fixed. *)
Definition setDirection (d : Z) (p : Game_Player) : Game_Player :=
  mkPlayer d (getInputDirection p) (isMoving p).

Section Plugin.

(** The plugin parameters, and the [executeMove] of the engine. *)
Variable delay : Z.
Variable stoppingCooldownAmount : Z.
Variable Game_Player_executeMove : Z -> Game_Player -> Game_Player.

Definition decrementTimers (t : Timers) : Timers :=
  let t1 :=
    if Z.ltb 0 (timeUntilMove t)
    then mkTimers (timeUntilMove t - 1) (stoppingCooldownTimer t)
    else t in
  if Z.ltb 0 (stoppingCooldownTimer t1)
  then mkTimers (timeUntilMove t1) (stoppingCooldownTimer t1 - 1)
  else t1.

(** [isDestinationValid] is [$gameTemp.isDestinationValid()]. *)
Definition handleTimeUntilMoveSetup (isDestinationValid : bool)
    (p : Game_Player) (t : Timers) : Timers :=
  if isDestinationValid || Z.ltb 0 (stoppingCooldownTimer t) then
    mkTimers 0 (stoppingCooldownTimer t)
  else if negb (Z.eqb (getInputDirection p) (direction p)) then
    mkTimers delay (stoppingCooldownTimer t)
  else t.

Definition handleMovementCooldown (p : Game_Player) (t : Timers) : Timers :=
  if isMoving p then mkTimers (timeUntilMove t) stoppingCooldownAmount else t.

(** The patched [executeMove]. *)
Definition executeMove (isDestinationValid : bool) (d : Z)
    (st : Game_Player * Timers) : Game_Player * Timers :=
  let t := handleTimeUntilMoveSetup isDestinationValid st.1 st.2 in
  if Z.leb (timeUntilMove t) 0 then (Game_Player_executeMove d st.1, t)
  else (setDirection d st.1, t).

(** One frame of the patched [update] without a touch destination: the
    timers run, then the engine's [update], for a player who stands still
    and can move, takes the direction of the input and, when there is one,
    calls [executeMove] with it.  How the engine carries a moving player on
    is not modelled. *)
Definition heldKeyFrame (st : Game_Player * Timers) : Game_Player * Timers :=
  let t := handleMovementCooldown st.1 (decrementTimers st.2) in
  if negb (isMoving st.1) && Z.ltb 0 (getInputDirection st.1) then
    executeMove false (getInputDirection st.1) (st.1, t)
  else (st.1, t).

Fixpoint heldKeyFrames (n : nat) (st : Game_Player * Timers)
    : Game_Player * Timers :=
  match n with
  | O => st
  | S k => heldKeyFrame (heldKeyFrames k st)
  end.

End Plugin.

End TurnInPlace.

(* ===================================================================== *)
(** * Composite bitmaps: properties *)
(* ===================================================================== *)

Module CompositeBitmapsFacts.
Import CompositeBitmaps.

(** The body of the [for] loop of [isNotCircularRef], named so that lemmas
    can talk about it. *)
Definition circLoop (fuel' : nat) (name : string) (dict : LayerDict)
    : list LayerInfo -> option bool :=
  fix loop (l : list LayerInfo) : option bool :=
    match l with
    | [] => Some true
    | info :: rest =>
      if String.eqb name (filename info) then Some false
      else
        match isNotCircularRef fuel' name (dict !! filename info) dict with
        | None => None
        | Some false => Some false
        | Some true => loop rest
        end
    end.

Lemma isNotCircularRef_S fuel name infos dict :
  isNotCircularRef (S fuel) name (Some infos) dict
  = circLoop fuel name dict infos.
Proof. reflexivity. Qed.

Lemma isNotCircularRef_undefined fuel name dict :
  isNotCircularRef (S fuel) name None dict = Some true.
Proof. reflexivity. Qed.

Lemma isNotCircularRef_empty fuel name dict :
  isNotCircularRef (S fuel) name (Some []) dict = Some true.
Proof. reflexivity. Qed.

(** An addition is rejected only for a destination that already has layers,
    so the rejection leaves every dictionary as it was and adds one line to
    the console. *)
Lemma addLayer_rejected fuel ty info source destination st :
  isNotCircularRef fuel destination
    (Some (default [] (layersOf ty st !! destination)))
    (<[destination := default [] (layersOf ty st !! destination)]> (layersOf ty st))
  = Some false ->
  exists line,
    addLayer fuel ty info source destination st
    = Some (console_error line st).
Proof.
  intros Hrej. unfold addLayer. rewrite lookup_insert_eq, Hrej.
  destruct (layersOf ty st !! destination) as [l|] eqn:Hl; simpl in *.
  - rewrite insert_id by done.
    eexists. unfold logCircularRef. f_equal. f_equal.
    destruct ty, st; simpl in *; reflexivity.
  - destruct fuel; simpl in Hrej; discriminate.
Qed.

(** On a dictionary whose references go down along some rank, that is, on a
    dictionary without cycles, the check returns once the stack is deeper
    than the ranks of the layers it starts from. *)
Lemma isNotCircularRef_returns_without_cycles
    (dict : LayerDict) (rank : string -> nat) :
  (forall a b, refs dict a b -> (rank b < rank a)%nat) ->
  forall fuel name infos,
    Forall (fun info => (rank (filename info) < fuel)%nat) infos ->
    is_Some (isNotCircularRef (S fuel) name (Some infos) dict).
Proof.
  intros Hrank. induction fuel as [|fuel IH]; intros name infos Hinfos.
  - destruct infos as [|info rest]; [done |].
    apply Forall_cons in Hinfos as [Hlt _]. lia.
  - rewrite isNotCircularRef_S.
    induction infos as [|info rest IHrest]; cbn [circLoop]; [done |].
    apply Forall_cons in Hinfos as [Hlt Hrest].
    destruct (String.eqb name (filename info)); [done |].
    destruct (dict !! filename info) as [layers|] eqn:Hk.
    + destruct (IH name layers) as [[|] Hsub].
      * apply Forall_forall. intros layer Hin.
        assert (rank (filename layer) < rank (filename info))%nat; [| lia].
        apply Hrank. exists layers. split; [done |].
        apply list_elem_of_fmap. by exists layer.
      * rewrite Hsub. by apply IHrest.
      * by rewrite Hsub.
    + rewrite isNotCircularRef_undefined. by apply IHrest.
Qed.

(** *** Example dictionaries *)

(** The dictionary after [addFaceLayer("A", "A", 0)] on a new game. *)
Definition selfLayered : LayerDict := {[ "A" := [FaceInfo "A" 0] ]}.

(** Two pictures layered onto each other. *)
Definition mutualPictures : LayerDict :=
  {[ "B" := [PlainInfo "C"]; "C" := [PlainInfo "B"] ]}.

Lemma selfLayered_cycle : has_cycle selfLayered.
Proof.
  exists "A". apply reaches_one. exists [FaceInfo "A" 0].
  split; [reflexivity | simpl; set_solver].
Qed.

Lemma mutualPictures_cycle : has_cycle mutualPictures.
Proof.
  exists "B". apply reaches_step with "C"; [| apply reaches_one].
  - exists [PlainInfo "C"]. split; [reflexivity | simpl; set_solver].
  - exists [PlainInfo "B"]. split; [reflexivity | simpl; set_solver].
Qed.

(** The dictionary after "B" also became a layer of "A". *)
Definition stuckState : State :=
  mkState ∅ ∅ ∅ (<["A" := [PlainInfo "B"]]> mutualPictures) ∅ 0 [].

(** The check walks round a cycle that avoids the queried name for as long
    as it has stack. *)
Lemma foreign_cycle_loop (dict : LayerDict) fuel name :
  dict !! "B" = Some [PlainInfo "C"] ->
  dict !! "C" = Some [PlainInfo "B"] ->
  name <> "B" -> name <> "C" ->
  isNotCircularRef fuel name (Some [PlainInfo "B"]) dict = None
  /\ isNotCircularRef fuel name (Some [PlainInfo "C"]) dict = None.
Proof.
  intros DB DC HB HC.
  assert (EB : String.eqb name "B" = false) by (by apply String.eqb_neq).
  assert (EC : String.eqb name "C" = false) by (by apply String.eqb_neq).
  induction fuel as [|fuel [IHB IHC]]; [done |].
  split; rewrite isNotCircularRef_S; simpl.
  - by rewrite EB, DB, IHC.
  - by rewrite EC, DC, IHB.
Qed.

Lemma addLayer_no_answer fuel ty info source destination st :
  isNotCircularRef fuel destination
    (Some (default [] (layersOf ty st !! destination)))
    (<[destination := default [] (layersOf ty st !! destination)]> (layersOf ty st))
  = None ->
  addLayer fuel ty info source destination st = None.
Proof. intros H. unfold addLayer. by rewrite lookup_insert_eq, H. Qed.

(** C1 (the code departs from the claim).  On a new game
    [addFaceLayer("A", "A", 0)] is accepted: the check runs over the layers
    the destination had before the call and never looks at the new source.
    The dictionary then holds the cycle A -> A and nothing is logged; the
    check fires one call late, on the next layer added to "A", whatever
    that layer is. *)
Theorem addFaceLayer_accepts_self_reference (fuel : nat) :
  exists st1 st2,
    addFaceLayer (S fuel) "A" "A" 0 initialState = Some st1
    /\ faceLayers st1 = selfLayered
    /\ console st1 = []
    /\ has_cycle (faceLayers st1)
    /\ addFaceLayer (S (S fuel)) "B" "A" 0 st1 = Some st2
    /\ faceLayers st2 = selfLayered
    /\ length (console st2) = 1%nat.
Proof.
  eexists _, _. split; [reflexivity |]. split; [reflexivity |].
  split; [reflexivity |]. split; [apply selfLayered_cycle |].
  split; [reflexivity |]. split; reflexivity.
Qed.

(** C2 (the code departs from the claim).  The dictionary [mutualPictures]
    is what [addPictureLayer("C", "B")] then [addPictureLayer("B", "C")]
    leave on a new game.  Its cycle does not pass through "A", and
    [isNotCircularRef("A", [{filename: "B"}], dict)] returns no answer at
    any recursion depth; after "B" became a layer of "A", every further
    [addPictureLayer] onto "A" ends the same way. *)
Theorem isNotCircularRef_no_answer_on_foreign_cycle (fuel : nat) :
  isNotCircularRef fuel "A" (Some [PlainInfo "B"]) mutualPictures = None
  /\ ((addPictureLayer 3 "C" "B" initialState
         ≫= addPictureLayer 3 "B" "C")
         ≫= addPictureLayer 3 "B" "A") = Some stuckState
  /\ addPictureLayer fuel "Y" "A" stuckState = None.
Proof.
  split; [by apply foreign_cycle_loop |].
  split; [vm_compute; reflexivity |].
  apply addLayer_no_answer.
  change (layersOf Picture stuckState !! "A") with (Some [PlainInfo "B"]).
  simpl default.
  by apply foreign_cycle_loop.
Qed.

(** *** Cache invalidation *)

Lemma invalidateCachedComposites_lookup layerName pre c key entry :
  invalidateCachedComposites layerName pre c !! key = Some entry
  <-> c !! key = Some entry
      /\ ~ (String.prefix pre key = true /\ layerName ∈ _images (bitmap entry)).
Proof. unfold invalidateCachedComposites. by rewrite map_lookup_filter_Some. Qed.


Lemma cache_setCache c st : cache (setCache c st) = c.
Proof. reflexivity. Qed.

Lemma cache_setLayers ty d st : cache (setLayers ty d st) = cache st.
Proof. by destruct ty. Qed.

Lemma console_setLayers ty d st : console (setLayers ty d st) = console st.
Proof. by destruct ty. Qed.


(** *** A worked scenario: F is layered from E, E from D, D from X *)

(** Stand-ins for the engine's functions in the scenarios below. *)
Definition sampleIsBig (name : string) : bool := false.
Definition sampleStringify (layerInfos : list LayerInfo) : string :=
  String.concat "," (map filename layerInfos).

Definition bitmapF : Composite_Bitmap := mkBitmap 0 ["E"].
Definition bitmapE : Composite_Bitmap := mkBitmap 1 ["D"].
Definition bitmapD : Composite_Bitmap := mkBitmap 2 ["X"].

(** The state once the three faces are set up and "F" has been loaded
    (which loads "E" and "D" in turn). *)
Definition cachedFaces : State :=
  mkState
    {[ "D" := [FaceInfo "X" 0]; "E" := [FaceInfo "D" 0]; "F" := [FaceInfo "E" 0] ]}
    ∅ ∅ ∅
    {[ "fcF" := mkEntry bitmapF "E"; "fcE" := mkEntry bitmapE "D";
       "fcD" := mkEntry bitmapD "X" ]}
    3 [].


Lemma cachedFaces_reached :
  (((addFaceLayer 9 "X" "D" 0 initialState
       ≫= addFaceLayer 9 "D" "E" 0)
       ≫= addFaceLayer 9 "E" "F" 0)
       ≫= loadFace sampleStringify 9 "F")
  = Some (CompositeImage bitmapF, cachedFaces).
Proof. vm_compute. reflexivity. Qed.




(** *** setupComposite *)

(** A bitmap built by the constructor is a new object: it takes the next
    free identity, and lists the file names of the layers given. *)
Lemma Composite_Bitmap_new_fresh loader layerInfos st b st' :
  Composite_Bitmap_new loader layerInfos st = Some (b, st') ->
  b = mkBitmap (nextBitmap st) (map filename layerInfos).
Proof.
  unfold Composite_Bitmap_new. intros H.
  match type of H with
  | match ?x with _ => _ end = _ => destruct x; by simplify_eq
  end.
Qed.

(** C4.  Take a call [setupComposite(filename, layers1, prefix, load1)]
    that returned bitmap [b1].  It leaves [b1] in the cache under
    [prefix + filename] with the serialization of [layers1].  Take a second
    call for the same file name and prefix with [layers2], in the state the
    first call left or in any later state [st2] that still holds that
    entry.  When [layers2] serializes to the same string, the second call
    returns [b1] itself and changes nothing: [load2] is not called.  When
    the serialization differs, the entry is deleted, [load2] builds a bitmap
    from [layers2] in the state without the entry, and that bitmap is stored
    under the key with the new serialization and returned. *)
Theorem setupComposite_second_call
    (JsonEx_stringify : list LayerInfo -> string)
    (name pre : string) (layers1 layers2 : list LayerInfo)
    (load1 load2 : list LayerInfo -> State -> option (Composite_Bitmap * State))
    (st st1 : State) (b1 : Composite_Bitmap) :
  setupComposite JsonEx_stringify name layers1 pre load1 st = Some (b1, st1) ->
  cache st1 !! String.append pre name
    = Some (mkEntry b1 (JsonEx_stringify layers1))
  /\ forall st2,
       cache st2 !! String.append pre name = cache st1 !! String.append pre name ->
       (JsonEx_stringify layers2 = JsonEx_stringify layers1 ->
        setupComposite JsonEx_stringify name layers2 pre load2 st2
        = Some (b1, st2))
       /\ (JsonEx_stringify layers2 <> JsonEx_stringify layers1 ->
           setupComposite JsonEx_stringify name layers2 pre load2 st2
           = match load2 layers2
                     (setCache (delete (String.append pre name) (cache st2)) st2) with
             | None => None
             | Some (b2, st3) =>
               Some (b2,
                     setCache (<[String.append pre name
                                 := mkEntry b2 (JsonEx_stringify layers2)]>
                                 (cache st3))
                              st3)
             end).
Proof.
  intros Hfirst.
  assert (Hentry : cache st1 !! String.append pre name
                   = Some (mkEntry b1 (JsonEx_stringify layers1))).
  { unfold setupComposite in Hfirst.
    destruct (cache st !! String.append pre name) as [[b c]|] eqn:Hk; simpl in Hfirst.
    - destruct (String.eqb c (JsonEx_stringify layers1)) eqn:Hc.
      + apply String.eqb_eq in Hc. by simplify_eq.
      + destruct (load1 _ _) as [[b' s']|]; simplify_eq.
        simpl. apply lookup_insert_eq.
    - destruct (load1 _ _) as [[b' s']|]; simplify_eq.
      simpl. apply lookup_insert_eq. }
  split; [done |]. intros st2 Hkept. rewrite Hentry in Hkept. split.
  - intros Heq. unfold setupComposite. rewrite Hkept. simpl.
    rewrite Heq, String.eqb_refl. reflexivity.
  - intros Hne. unfold setupComposite. rewrite Hkept. simpl.
    apply not_eq_sym in Hne. apply String.eqb_neq in Hne. rewrite Hne.
    reflexivity.
Qed.

(** An image manager whose every file is a plain engine image. *)
Definition plainLoader (img : string) (st : State) : option (Image * State) :=
  Some (EngineImage Face img, st).

(** The state after a first [setupComposite] of "F", layered from "E". *)
Definition cachedF : State :=
  mkState ∅ ∅ ∅ ∅ {[ "fcF" := mkEntry (mkBitmap 0 ["E"]) "E" ]} 1 [].

Lemma setupComposite_second_call_witness :
  cache cachedF !! String.append "fc" "F"
    = Some (mkEntry (mkBitmap 0 ["E"]) (sampleStringify [FaceInfo "E" 0]))
  /\ forall st2,
       cache st2 !! String.append "fc" "F" = cache cachedF !! String.append "fc" "F" ->
       (sampleStringify [FaceInfo "X" 1] = sampleStringify [FaceInfo "E" 0] ->
        setupComposite sampleStringify "F" [FaceInfo "X" 1] "fc"
          (Composite_Bitmap_new plainLoader) st2
        = Some (mkBitmap 0 ["E"], st2))
       /\ (sampleStringify [FaceInfo "X" 1] <> sampleStringify [FaceInfo "E" 0] ->
           setupComposite sampleStringify "F" [FaceInfo "X" 1] "fc"
             (Composite_Bitmap_new plainLoader) st2
           = match Composite_Bitmap_new plainLoader [FaceInfo "X" 1]
                     (setCache (delete (String.append "fc" "F") (cache st2)) st2) with
             | None => None
             | Some (b2, st3) =>
               Some (b2,
                     setCache (<[String.append "fc" "F"
                                 := mkEntry b2 (sampleStringify [FaceInfo "X" 1])]>
                                 (cache st3))
                              st3)
             end).
Proof.
  apply (setupComposite_second_call sampleStringify "F" "fc"
           [FaceInfo "E" 0] [FaceInfo "X" 1]
           (Composite_Bitmap_new plainLoader) (Composite_Bitmap_new plainLoader)
           initialState cachedF (mkBitmap 0 ["E"])).
  vm_compute. reflexivity.
Defined.

(** *** recursivelyFlatten and flattenLayerInfos *)

(** The callback of [layerInfos.forEach] in [recursivelyFlatten], folded
    over the list. *)
Definition flattenEach (fuel' : nat) (compList : LayerDict)
    (parentNames : gset string) : list LayerInfo -> option (list LayerInfo) :=
  fix each (l : list LayerInfo) : option (list LayerInfo) :=
    match l with
    | [] => Some []
    | layerInfo :: rest =>
      if decide (filename layerInfo ∈ parentNames) then each rest
      else
        match compList !! filename layerInfo with
        | Some listEntry =>
          match recursivelyFlatten fuel' listEntry compList
                  ({[filename layerInfo]} ∪ parentNames) with
          | None => None
          | Some sub =>
            match each rest with
            | None => None
            | Some newInfos => Some (sub ++ newInfos)
            end
          end
        | None =>
          match each rest with
          | None => None
          | Some newInfos => Some (layerInfo :: newInfos)
          end
        end
    end.

Lemma recursivelyFlatten_S fuel layerInfos compList parentNames :
  recursivelyFlatten (S fuel) layerInfos compList parentNames
  = flattenEach fuel compList parentNames layerInfos.
Proof. reflexivity. Qed.

Section Flatten.

Variable compList : LayerDict.

Local Arguments recursivelyFlatten : simpl never.






End Flatten.


(** *** Save and load *)

(** C10.  The object made by the patched [makeSaveContents] in state [st],
    given to the patched [extractSaveContents] in any later state [st'],
    restores the four dictionaries of [st]; and both functions leave the
    composite cache empty. *)
Theorem save_then_load_restores_layers
    (contents : SaveContents) (st st' : State) :
  let saved := makeSaveContents contents st in
  let loaded := extractSaveContents saved.1 st' in
  faceLayers loaded = faceLayers st
  /\ tvCharLayers loaded = tvCharLayers st
  /\ svCharLayers loaded = svCharLayers st
  /\ picLayers loaded = picLayers st
  /\ cache saved.2 = ∅
  /\ cache loaded = ∅.
Proof. simpl. repeat split; reflexivity. Qed.

End CompositeBitmapsFacts.

(* ===================================================================== *)
(** * Mirrors: properties *)
(* ===================================================================== *)

Module MirrorsFacts.
Import Mirrors.

(** *** The countdown of a loop *)

Lemma countdown_range n z : In z (countdown n) <-> 0 <= z < Z.of_nat n.
Proof.
  induction n as [|k IH]; simpl; [lia |].
  rewrite IH. lia.
Qed.

Lemma downFrom_range n z : In z (downFrom n) <-> 0 <= z < n.
Proof. unfold downFrom. rewrite countdown_range. lia. Qed.

Lemma countdown_NoDup n : NoDup (countdown n).
Proof.
  induction n as [|k IH]; simpl; constructor; [| done].
  rewrite list_elem_of_In, countdown_range. lia.
Qed.

(** The first element that a filter keeps of a countdown is the largest
    element of the range that passes the test. *)
Lemma filter_countdown_first (keep : Z -> bool) n :
  match List.filter keep (countdown n) with
  | [] => forall z, 0 <= z < Z.of_nat n -> keep z = false
  | first :: _ =>
    0 <= first < Z.of_nat n /\ keep first = true
    /\ forall z, 0 <= z < Z.of_nat n -> keep z = true -> z <= first
  end.
Proof.
  induction n as [|k IH]; simpl; [lia |].
  destruct (keep (Z.of_nat k)) eqn:Hk.
  - split; [lia |]. split; [done |]. lia.
  - destruct (List.filter keep (countdown k)) as [|first rest].
    + intros z Hz. destruct (decide (z = Z.of_nat k)) as [-> | ]; [done |].
      apply IH. lia.
    + destruct IH as (Hr & Hf & Hmax). split; [lia |]. split; [done |].
      intros z Hz Hkz. destruct (decide (z = Z.of_nat k)) as [-> | ];
        [congruence |]. apply Hmax; [lia | done].
Qed.

Lemma filter_filter_andb {A} (p q : A -> bool) (l : list A) :
  List.filter p (List.filter q l) = List.filter (fun a => q a && p a) l.
Proof.
  induction l as [|a l IH]; simpl; [done |].
  destruct (q a); simpl; [destruct (p a) |]; by rewrite IH.
Qed.

Section Walls.

Variable wallRegions : gset Z.
Variable map : GameMap.

(** The rows of column [i] that carry a wall region, from the bottom up. *)
Definition wallRows (i : Z) : list Z :=
  List.filter (fun j => bool_decide (regionId map i j ∈ wallRegions))
              (downFrom (height map)).

Lemma buildColumn_spec i (regionMap : gmap Z (list Z)) :
  buildColumn wallRegions map i regionMap
  = match wallRows i with
    | [] => regionMap
    | rows => <[i := default [] (regionMap !! i) ++ rows]> regionMap
    end.
Proof.
  unfold buildColumn, wallRows.
  generalize (downFrom (height map)) as js. intros js. revert regionMap.
  induction js as [|j js IH]; intros regionMap; cbn [foldl List.filter];
    [done |].
  rewrite IH. destruct (decide (regionId map i j ∈ wallRegions)) as [Hj | Hj].
  - rewrite bool_decide_eq_true_2 by done.
    rewrite lookup_insert_eq. simpl.
    destruct (List.filter _ js) as [|j' rows]; [done |].
    by rewrite insert_insert_eq, <- app_assoc.
  - by rewrite bool_decide_eq_false_2 by done.
Qed.

Lemma buildColumns_lookup (cols : list Z) x :
  forall regionMap : gmap Z (list Z),
    NoDup cols -> (forall i, i ∈ cols -> regionMap !! i = None) ->
    foldl (fun m i => buildColumn wallRegions map i m) regionMap cols !! x
    = if decide (x ∈ cols)
      then match wallRows x with [] => None | rows => Some rows end
      else regionMap !! x.
Proof.
  induction cols as [|i cols IH]; intros regionMap Hnd Hnone; cbn [foldl].
  - destruct (decide (x ∈ [])) as [Hx | _]; [| done]. by apply elem_of_nil in Hx.
  - apply NoDup_cons in Hnd as [Hi Hnd].
    assert (Hcol : buildColumn wallRegions map i regionMap !! i
                   = match wallRows i with [] => None | rows => Some rows end).
    { rewrite buildColumn_spec, (Hnone i) by set_solver.
      destruct (wallRows i); [apply Hnone; set_solver |].
      by rewrite lookup_insert_eq. }
    assert (Hother : forall k, k <> i ->
              buildColumn wallRegions map i regionMap !! k = regionMap !! k).
    { intros k Hk. rewrite buildColumn_spec.
      destruct (wallRows i); [done |]. by rewrite lookup_insert_ne. }
    rewrite IH; [| done |].
    + destruct (decide (x ∈ cols)) as [Hx | Hx];
        destruct (decide (x ∈ i :: cols)) as [Hx' | Hx']; try done.
      * set_solver.
      * apply elem_of_cons in Hx' as [-> | ]; done.
      * apply Hother. set_solver.
    + intros k Hk. rewrite Hother; [apply Hnone; set_solver | set_solver].
Qed.

(** What [buildCurrentMapCache] holds for a column. *)
Lemma buildCurrentMapCache_lookup x :
  buildCurrentMapCache wallRegions map !! x
  = if decide (0 <= x < width map)
    then match wallRows x with [] => None | rows => Some rows end
    else None.
Proof.
  unfold buildCurrentMapCache.
  rewrite buildColumns_lookup; [| apply countdown_NoDup | done].
  destruct (decide (0 <= x < width map)) as [Hx | Hx].
  - rewrite decide_True; [done |]. by apply list_elem_of_In, downFrom_range.
  - rewrite decide_False; [done |]. by rewrite list_elem_of_In, downFrom_range.
Qed.

(** The answer [getWallY] gives from a cache built for this map. *)
Definition closestWall (x y wallY : Z) : Prop :=
  (wallY = -1 /\ forall y', y' <= y -> ~ wallTile wallRegions map x y')
  \/ (wallTile wallRegions map x wallY /\ wallY <= y
      /\ forall y', y' <= y -> wallTile wallRegions map x y' -> y' <= wallY).

Lemma lookup_closestWall x y :
  closestWall x y
    match buildCurrentMapCache wallRegions map !! x with
    | Some col =>
      match List.filter (fun yCoord => Z.leb yCoord y) col with
      | yFirst :: _ => yFirst
      | [] => -1
      end
    | None => -1
    end.
Proof.
  rewrite buildCurrentMapCache_lookup.
  set (keep := fun j => bool_decide (regionId map x j ∈ wallRegions) && Z.leb j y).
  assert (Hkeep : forall j, keep j = true
                            <-> regionId map x j ∈ wallRegions /\ j <= y).
  { intros j. unfold keep.
    rewrite andb_true_iff, bool_decide_eq_true, Z.leb_le. done. }
  assert (Hboth : List.filter (fun yCoord => Z.leb yCoord y) (wallRows x)
                  = List.filter keep (downFrom (height map))).
  { unfold wallRows. by rewrite filter_filter_andb. }
  pose proof (filter_countdown_first keep (Z.to_nat (height map))) as Hfirst.
  fold (downFrom (height map)) in Hfirst. rewrite <- Hboth in Hfirst.
  assert (Hnone : (forall z, 0 <= z < Z.of_nat (Z.to_nat (height map)) ->
                             keep z = false) ->
                  closestWall x y (-1)).
  { intros Hno. left. split; [done |]. intros y' Hy' (Hx & Hh & Hw).
    specialize (Hno y' ltac:(lia)).
    assert (keep y' = true) by (by apply Hkeep). congruence. }
  destruct (decide (0 <= x < width map)) as [Hx | Hx].
  - destruct (wallRows x) as [|row rows] eqn:Hrows.
    + apply Hnone. exact Hfirst.
    + destruct (List.filter _ (row :: rows)) as [|first rest].
      * by apply Hnone.
      * destruct Hfirst as (Hr & Hk & Hmax). apply Hkeep in Hk as [Hw Hle].
        right. split; [split; [done | split; [lia | done]] |].
        split; [done |]. intros y' Hy' (_ & Hh & Hw').
        apply Hmax; [lia |]. by apply Hkeep.
  - left. split; [done |]. intros y' _ (Hx' & _). done.
Qed.

(** C5, amended.  With the cache in step with the map, that is, built from
    the region IDs the map has now, [getWallY(x, y)] returns a number: the
    largest row [y' <= y] whose tile [(x, y')] of the map carries one of the
    wall regions, or [-1] when column [x] has no such tile at or above
    [y]; and it leaves the cache in step. *)
Theorem getWallY_closest_wall (x y : Z) (c : WallCache) :
  in_step wallRegions map c ->
  exists wallY,
    (getWallY wallRegions map x y c).1 = Some wallY
    /\ closestWall x y wallY
    /\ in_step wallRegions map (getWallY wallRegions map x y c).2.
Proof.
  intros Hstep. unfold getWallY.
  set (c1 := if decide (currMapId c = mapId map) then c else _).
  assert (Hc1 : reflectWallPositions c1
                = Some (buildCurrentMapCache wallRegions map)).
  { unfold c1. case_decide; [by apply Hstep | done]. }
  rewrite Hc1.
  pose proof (lookup_closestWall x y) as Hclosest.
  assert (Hstep1 : in_step wallRegions map c1) by (by intros _).
  destruct (buildCurrentMapCache wallRegions map !! x) as [col|]; [| by eauto].
  destruct (List.filter _ col); by eauto.
Qed.

(** The plugin keeps the cache in step: it is so before the first map is
    entered, and after every rebuild. *)
Lemma in_step_initial :
  mapId map <> -1 -> in_step wallRegions map initialWallCache.
Proof. intros Hid Heq. simpl in Heq. congruence. Qed.

Lemma in_step_refresh c :
  in_step wallRegions map (refreshReflectWallCache wallRegions map c).
Proof. by intros _. Qed.

End Walls.

(** A map one tile wide and three tiles high, with a wall region on its top
    tile; region 1 is the wall region. *)
Definition corridor : GameMap :=
  mkMap 1 1 3 (fun x y => if Z.eqb y 0 then 1 else 0).

(** The same map after the wall region was moved one tile down during
    play. *)
Definition corridor_edited : GameMap :=
  mkMap 1 1 3 (fun x y => if Z.eqb y 1 then 1 else 0).

(** Another map, without wall regions. *)
Definition cellar : GameMap := mkMap 2 1 3 (fun x y => 0).

Lemma getWallY_closest_wall_witness :
  exists wallY,
    (getWallY {[1]} corridor 0 2 initialWallCache).1 = Some wallY
    /\ closestWall {[1]} corridor 0 2 wallY
    /\ in_step {[1]} corridor (getWallY {[1]} corridor 0 2 initialWallCache).2.
Proof.
  apply (getWallY_closest_wall {[1]} corridor 0 2 initialWallCache).
  intros Heq. simpl in Heq. discriminate Heq.
Defined.

Lemma corridor_wall_row y' :
  wallTile {[1]} corridor 0 y' <-> y' = 0.
Proof.
  unfold wallTile, corridor. cbn [width height regionId]. split.
  - intros (_ & Hh & Hr). destruct (Z.eqb_spec y' 0) as [| Hne]; [done |].
    by apply elem_of_singleton in Hr.
  - intros ->. split; [lia |]. split; [lia |]. by apply elem_of_singleton.
Qed.

Lemma corridor_edited_wall_row y' :
  wallTile {[1]} corridor_edited 0 y' <-> y' = 1.
Proof.
  unfold wallTile, corridor_edited. cbn [width height regionId]. split.
  - intros (_ & Hh & Hr). destruct (Z.eqb_spec y' 1) as [| Hne]; [done |].
    by apply elem_of_singleton in Hr.
  - intros ->. split; [lia |]. split; [lia |]. by apply elem_of_singleton.
Qed.

(** C5, as stated, fails when the cache is out of step.  [getWallY] looks
    at the map only when the map id differs from the recorded one.  After a
    first call on [corridor], a change of its region IDs without a refresh
    ([corridor_edited]) goes unnoticed: the answer for (0, 2) is still row 0
    while the wall is on row 1.  And after [Game_Map.refresh] rebuilt the
    cache while the party was on [cellar], where no reflection asked for a
    wall, the answer back on [corridor] is -1 while its wall is on row
    0. *)
Lemma getWallY_out_of_step :
  let c1 := (getWallY {[1]} corridor 0 2 initialWallCache).2 in
  let c2 := refreshReflectWallCache {[1]} cellar c1 in
  ((getWallY {[1]} corridor_edited 0 2 c1).1 = Some 0
   /\ ~ closestWall {[1]} corridor_edited 0 2 0)
  /\ ((getWallY {[1]} corridor 0 2 c2).1 = Some (-1)
      /\ ~ closestWall {[1]} corridor 0 2 (-1)).
Proof.
  cbv zeta. split; split.
  - vm_compute. reflexivity.
  - intros [[H _] | (Hw & _)]; [done |].
    by apply corridor_edited_wall_row in Hw.
  - vm_compute. reflexivity.
  - intros [[_ Hno] | (Hw & _)].
    + apply (Hno 0); [lia |]. by apply corridor_wall_row.
    + by apply corridor_wall_row in Hw.
Qed.

(** *** The pseudo-perspective scale *)

Section Scale.

Local Open Scope Q_scope.

Lemma perspectiveScale_range d m :
  0 <= perspectiveScale d m /\ perspectiveScale d m <= 1.
Proof.
  unfold perspectiveScale. cbv zeta.
  generalize (1 - (d - 1) / m). intros scale.
  destruct (Qlt_le_dec 1 scale) as [H1 | H1]; [lra |].
  destruct (Qlt_le_dec scale 0) as [H0 | H0]; lra.
Qed.

Lemma perspectiveScale_clamp d m :
  perspectiveScale d m == clamp01 (1 - (d - 1) / m).
Proof.
  unfold perspectiveScale, clamp01. cbv zeta.
  generalize (1 - (d - 1) / m). intros scale.
  destruct (Qlt_le_dec 1 scale) as [H1 | H1].
  - rewrite (Q.min_l 1 scale) by lra. rewrite Q.max_r by lra. reflexivity.
  - rewrite (Q.min_r 1 scale) by lra.
    destruct (Qlt_le_dec scale 0) as [H0 | H0].
    + rewrite Q.max_l by lra. reflexivity.
    + rewrite Q.max_r by lra. reflexivity.
Qed.

Lemma perspectiveScale_far d m :
  0 < m -> m + 1 <= d -> perspectiveScale d m == 0.
Proof.
  intros Hm Hd.
  assert (Hq : 1 <= (d - 1) / m) by (apply Qle_shift_div_l; lra).
  unfold perspectiveScale. cbv zeta.
  revert Hq. generalize ((d - 1) / m). intros q Hq.
  destruct (Qlt_le_dec 1 (1 - q)) as [H1 | H1]; [lra |].
  destruct (Qlt_le_dec (1 - q) 0) as [H0 | H0]; lra.
Qed.

Lemma Qabs_scaled a f : 0 <= f -> f <= 1 -> Qabs (a * f) <= Qabs a.
Proof.
  intros H0 H1. rewrite Qabs_Qmult, (Qabs_pos f) by done.
  rewrite <- (Qmult_1_r (Qabs a)) at 2.
  apply Qmult_le_compat_nonneg; split;
    [apply Qabs_nonneg | apply Qle_refl | done | done].
Qed.

(** The character sprite shows a tile and the reflection has its name. *)
Definition drawsTile (this r : Sprite) : bool :=
  Z.ltb 0 (_tileId this) && String.eqb (_characterName this) (_characterName r).

(** A character sprite of scale 1 showing a tile, one tile below the wall
    of [corridor]. *)
Definition tileSprite : Sprite := mkSprite true 255 0 0 1 1 0 0 5 "".
Definition blankReflection : Sprite := mkSprite false 255 0 0 1 1 0 0 0 "".
Definition walker : Character := mkCharacter 0 1 1 0 true None false 0 0.
Definition perspectiveMap : MapReflect := mkMapReflect true 0 48 0 0.

(** C6, as stated, fails.  For a sprite that shows a tile the reflection is
    not mirrored: at distance 1 of the wall, with scale 1, the x scale of
    the reflection is 1 and not -1.  And the scale is 0 from distance
    [maxWallDistance + 1] on only for a positive [maxWallDistance]: with
    -20 the factor at distance 1 is 1. *)
Lemma tile_reflection_not_mirrored :
  match updateReflectWall {[1%Z]} ∅ 20 corridor perspectiveMap walker
          tileSprite blankReflection initialWallCache with
  | Some (r', _) =>
    visible r' = true /\ scale_x r' == 1
    /\ ~ scale_x r' == - scale_x tileSprite * clamp01 (1 - (1 - 1) / 20)
  | None => False
  end
  /\ (- 20 + 1 <= 1 /\ perspectiveScale 1 (- 20) == 1).
Proof. vm_compute. repeat split; intros H; discriminate H. Qed.

(** C6, amended.  In pseudo-perspective mode with a positive
    [maxWallDistance], when [updateReflectWall] leaves the reflection
    visible, [getWallY] found a wall row [wallY >= 0]; with
    [d = _realY - wallY] and [factor] the number [1 - (d - 1) /
    maxWallDistance] clamped into [[0, 1]], the y scale of the reflection is
    the y scale of the character sprite times [factor]; the x scale is the
    negated x scale of the character sprite times [factor], except for a
    sprite that shows a tile, where it is the absolute value of that; both
    are at most the character sprite's in absolute value, and both are 0
    when [d >= maxWallDistance + 1]. *)
Theorem wall_reflection_scale
    (wallRegions noReflectRegions : gset Z) (maxWallDistance : Q)
    (map : GameMap) (opts : MapReflect) (char : Character)
    (this r r' : Sprite) (c c' : WallCache) :
  0 < maxWallDistance ->
  reflectMode opts = wallModes_perspective ->
  updateReflectWall wallRegions noReflectRegions maxWallDistance
    map opts char this r c = Some (r', c') ->
  visible r' = true ->
  exists wallY,
    (getWallY wallRegions map (cx char) (cy char) c).1 = Some wallY
    /\ (0 <= wallY)%Z
    /\ let d := _realY char - inject_Z wallY in
       let factor := clamp01 (1 - (d - 1) / maxWallDistance) in
       0 <= factor /\ factor <= 1
       /\ scale_y r' == scale_y this * factor
       /\ scale_x r' == (if drawsTile this r
                         then Qabs (- scale_x this * factor)
                         else - scale_x this * factor)
       /\ Qabs (scale_x r') <= Qabs (scale_x this)
       /\ Qabs (scale_y r') <= Qabs (scale_y this)
       /\ (maxWallDistance + 1 <= d -> scale_x r' == 0 /\ scale_y r' == 0).
Proof.
  intros Hm Hmode Hrun Hvis. unfold updateReflectWall in Hrun.
  destruct (negb (wantsWallReflection _ _ _ _)); [by simplify_eq |].
  destruct (getWallY wallRegions map (cx char) (cy char) c)
    as [[wallY|] c1] eqn:Hwall; [| done].
  destruct (Z.ltb_spec wallY 0) as [Hneg | Hpos]; [by simplify_eq |].
  rewrite Hmode in Hrun. cbn [Z.eqb wallModes_perspective] in Hrun.
  exists wallY. split; [done |]. split; [done |].
  cbv zeta.
  set (d := _realY char - inject_Z wallY) in *.
  pose proof (perspectiveScale_range d maxWallDistance) as [Hf0 Hf1].
  pose proof (perspectiveScale_clamp d maxWallDistance) as Hclamp.
  revert Hclamp. generalize (clamp01 (1 - (d - 1) / maxWallDistance)).
  intros factor Hclamp.
  set (f := perspectiveScale d maxWallDistance) in *.
  injection Hrun as Hr' _. subst r'.
  unfold handleReflectFrame, drawsTile. cbn [_tileId _characterName].
  assert (Hx : Qabs (- scale_x this * f) <= Qabs (scale_x this)).
  { rewrite <- (Qabs_opp (scale_x this)). by apply Qabs_scaled. }
  assert (Hy : Qabs (scale_y this * f) <= Qabs (scale_y this))
    by (by apply Qabs_scaled).
  assert (Hfar : maxWallDistance + 1 <= d -> f == 0)
    by (by apply perspectiveScale_far).
  split; [by rewrite <- Hclamp |]. split; [by rewrite <- Hclamp |].
  destruct ((0 <? _tileId this)%Z && String.eqb _ _);
    cbn [scale_x scale_y].
  - split; [by rewrite Hclamp |]. split; [by rewrite Hclamp |].
    split; [by rewrite Qabs_pos by apply Qabs_nonneg |]. split; [done |].
    intros Hd. rewrite (Hfar Hd). split; [| ring].
    assert (H0 : - scale_x this * 0 == 0) by ring. by rewrite H0.
  - split; [by rewrite Hclamp |]. split; [by rewrite Hclamp |].
    split; [done |]. split; [done |].
    intros Hd. rewrite (Hfar Hd). split; ring.
Qed.

(** A character sprite of scale 2 that does not show a tile. *)
Definition heroSprite : Sprite := mkSprite true 255 0 0 2 2 0 0 0 "Actor1".
Definition heroReflection : Sprite :=
  match updateReflectWall {[1%Z]} ∅ 20 corridor perspectiveMap walker
          heroSprite blankReflection initialWallCache with
  | Some (r', _) => r'
  | None => blankReflection
  end.

Lemma wall_reflection_scale_witness :
  exists wallY,
    (getWallY {[1%Z]} corridor (cx walker) (cy walker) initialWallCache).1
    = Some wallY
    /\ (0 <= wallY)%Z
    /\ let d := _realY walker - inject_Z wallY in
       let factor := clamp01 (1 - (d - 1) / 20) in
       0 <= factor /\ factor <= 1
       /\ scale_y heroReflection == scale_y heroSprite * factor
       /\ scale_x heroReflection
          == (if drawsTile heroSprite blankReflection
              then Qabs (- scale_x heroSprite * factor)
              else - scale_x heroSprite * factor)
       /\ Qabs (scale_x heroReflection) <= Qabs (scale_x heroSprite)
       /\ Qabs (scale_y heroReflection) <= Qabs (scale_y heroSprite)
       /\ (20 + 1 <= d -> scale_x heroReflection == 0 /\ scale_y heroReflection == 0).
Proof.
  apply (wall_reflection_scale {[1%Z]} ∅ 20 corridor perspectiveMap walker
           heroSprite blankReflection heroReflection initialWallCache
           (mkWallCache (Some (buildCurrentMapCache {[1%Z]} corridor)) 1)).
  - reflexivity.
  - reflexivity.
  - vm_compute. reflexivity.
  - reflexivity.
Defined.

End Scale.

End MirrorsFacts.

(* ===================================================================== *)
(** * Conditional faces: properties *)
(* ===================================================================== *)

Module ConditionalFacesFacts.
Import ConditionalFaces.





(** *** Tokens that are numbers *)









End ConditionalFacesFacts.

(* ===================================================================== *)
(** * Move-route transforms: properties *)
(* ===================================================================== *)

Module MoveRouteTFFacts.
Import MoveRouteTF.

Local Open Scope Q_scope.

(** A whole number of frames as an exact number. *)
Definition frames (n : nat) : Q := inject_Z (Z.of_nat n).





Section Tween.

Variable tf : Transform Q.
Variables s g : Q.
Variable d : nat.

(** The transform [t] frames after [setTarget(tf, s, g, d)]. *)
Definition after (t : nat) : Transform Q :=
  ticks t (setTarget tf s g (frames d)).




End Tween.





End MoveRouteTFFacts.

(* ===================================================================== *)
(** * Composite bitmaps: further properties of the layer commands *)
(* ===================================================================== *)

Module CompositeBitmapsMore.
Import CompositeBitmaps CompositeBitmapsFacts.

(** No name is kept with an empty array of layers. *)
Definition no_empty_entry (dict : LayerDict) : Prop :=
  forall name layers, dict !! name = Some layers -> layers <> [].

Definition all_nonempty (st : State) : Prop :=
  forall ty, no_empty_entry (layersOf ty st).



(** *** State bookkeeping *)

Lemma setLayers_same ty st : setLayers ty (layersOf ty st) st = st.
Proof. by destruct ty, st. Qed.

Lemma layersOf_setLayers ty d st : layersOf ty (setLayers ty d st) = d.
Proof. by destruct ty. Qed.

Lemma layersOf_setLayers_ne ty ty' d st :
  ty <> ty' -> layersOf ty' (setLayers ty d st) = layersOf ty' st.
Proof. by destruct ty, ty'. Qed.

Lemma layersOf_setCache ty c st : layersOf ty (setCache c st) = layersOf ty st.
Proof. by destruct ty. Qed.

Lemma layersOf_console_error ty line st :
  layersOf ty (console_error line st) = layersOf ty st.
Proof. by destruct ty. Qed.

(** *** The two outcomes of an addition *)

(** The state after an accepted addition. *)
Definition added (ty : LayerType) (info : LayerInfo) (destination : string)
    (st : State) : State :=
  setCache (invalidateCachedComposites destination (prefixOf ty) (cache st))
    (setLayers ty
       (<[destination := default [] (layersOf ty st !! destination) ++ [info]]>
          (layersOf ty st))
       st).

Lemma addLayer_outcome fuel ty info source destination st st' :
  addLayer fuel ty info source destination st = Some st' ->
  st' = added ty info destination st
  \/ (default [] (layersOf ty st !! destination) <> []
      /\ st' = logCircularRef source destination st).
Proof.
  unfold addLayer. rewrite lookup_insert_eq.
  destruct (isNotCircularRef _ _ _ _) as [[|]|] eqn:Hcheck; [| | done].
  - intros [= <-]. left. unfold added. by rewrite insert_insert_eq.
  - intros [= <-]. right.
    destruct (layersOf ty st !! destination) as [layers|] eqn:Hk; simpl in *.
    + split.
      * intros ->. destruct fuel; simpl in Hcheck; discriminate.
      * by rewrite insert_id, setLayers_same.
    + destruct fuel; simpl in Hcheck; discriminate.
Qed.

Lemma console_added ty info destination st :
  console (added ty info destination st) = console st.
Proof. unfold added. simpl. apply console_setLayers. Qed.

Lemma console_logged source destination st :
  length (console (logCircularRef source destination st))
  = S (length (console st)).
Proof. unfold logCircularRef. simpl. rewrite length_app. simpl. lia. Qed.


(** X1.  An addition that is rejected changes nothing but the console: the
    destination already had layers, the four dictionaries, the cache and
    the bitmap identities are as before, and exactly one line, naming the
    source and the destination, is appended to the console. *)
Theorem rejected_addition_only_logs
    (fuel : nat) (ty : LayerType) (info : LayerInfo)
    (source destination : string) (st st' : State) :
  addLayer fuel ty info source destination st = Some st' ->
  ~ accepted st st' ->
  (exists layers, layersOf ty st !! destination = Some layers /\ layers <> [])
  /\ (forall ty', layersOf ty' st' = layersOf ty' st)
  /\ cache st' = cache st
  /\ nextBitmap st' = nextBitmap st
  /\ console st'
     = console st
       ++ ["Detected circular reference when trying to add " +:+ source
           +:+ " to " +:+ destination +:+ "!"
           +:+ String (ascii_of_nat 10) "Ignoring layer..."].
Proof.
  intros Hadd Hrej. apply addLayer_outcome in Hadd as [-> | [Hne ->]].
  - exfalso. apply Hrej. apply console_added.
  - split.
    + destruct (layersOf ty st !! destination) as [layers|]; [by eauto | done].
    + split; [intros ty'; apply layersOf_console_error |].
      repeat split.
Qed.



(** The dictionary after [addFaceLayer("A", "A", 0)] then the state in which
    a second layer for "A" was turned down. *)
Definition selfLayeredState : State := mkState selfLayered ∅ ∅ ∅ ∅ 0 [].

Lemma rejected_addition_only_logs_witness :
  (exists layers,
      layersOf Face selfLayeredState !! "A" = Some layers /\ layers <> [])
  /\ (forall ty',
        layersOf ty' (logCircularRef "B" "A" selfLayeredState)
        = layersOf ty' selfLayeredState)
  /\ cache (logCircularRef "B" "A" selfLayeredState) = cache selfLayeredState
  /\ nextBitmap (logCircularRef "B" "A" selfLayeredState)
     = nextBitmap selfLayeredState
  /\ console (logCircularRef "B" "A" selfLayeredState)
     = console selfLayeredState
       ++ ["Detected circular reference when trying to add " +:+ "B"
           +:+ " to " +:+ "A" +:+ "!"
           +:+ String (ascii_of_nat 10) "Ignoring layer..."].
Proof.
  apply (rejected_addition_only_logs 2 Face (FaceInfo "B" 0) "B" "A"
           selfLayeredState (logCircularRef "B" "A" selfLayeredState)).
  - vm_compute. reflexivity.
  - unfold accepted. intros H. discriminate H.
Defined.

(** *** What the check computes on a dictionary without cycles *)












(** *** An invariant of the dictionaries *)

#[local] Instance LayerType_eq_dec : EqDecision LayerType.
Proof. solve_decision. Defined.

Lemma no_empty_entry_added ty info destination st :
  all_nonempty st -> all_nonempty (added ty info destination st).
Proof.
  intros Hst ty' name layers. unfold added. rewrite layersOf_setCache.
  destruct (decide (ty = ty')) as [<- | Hne].
  - rewrite layersOf_setLayers.
    destruct (decide (name = destination)) as [-> | Hname].
    + rewrite lookup_insert_eq. intros [= <-]. by destruct (default [] _).
    + rewrite lookup_insert_ne by done. apply Hst.
  - rewrite layersOf_setLayers_ne by done. apply Hst.
Qed.

(** X5.  No command leaves a name with an empty array of layers: if every
    entry of the four dictionaries is non-empty before an addition (whatever
    its outcome), a [removeFaceLayers] / [removeSvLayers] /
    [removePictureLayers] or a [removeTvLayers], then every entry is
    non-empty after it.  A new game starts with no entries. *)
Theorem commands_keep_entries_nonempty (st : State) :
  all_nonempty st ->
  (forall fuel ty info source destination st',
      addLayer fuel ty info source destination st = Some st' ->
      all_nonempty st')
  /\ (forall ty name, all_nonempty (removeLayers ty name st))
  /\ (forall key index, all_nonempty (removeTvLayers key index st)).
Proof.
  intros Hst. split; [| split].
  - intros fuel ty info source destination st' Hadd.
    apply addLayer_outcome in Hadd as [-> | [_ ->]].
    + by apply no_empty_entry_added.
    + intros ty'. unfold logCircularRef. rewrite layersOf_console_error.
      apply Hst.
  - intros ty name ty' key layers. unfold removeLayers.
    rewrite layersOf_setCache.
    destruct (decide (ty = ty')) as [<- | Hne].
    + rewrite layersOf_setLayers. intros Hk.
      apply lookup_delete_Some in Hk as [_ Hk]. by apply (Hst ty) in Hk.
    + rewrite layersOf_setLayers_ne by done. apply Hst.
  - intros key index. unfold removeTvLayers.
    destruct (tvCharLayers st !! key) as [chArr|] eqn:Hk; [| done].
    intros ty' name layers. rewrite layersOf_setCache.
    destruct (decide (TopView = ty')) as [<- | Hne].
    + rewrite layersOf_setLayers.
      assert (Hdel : delete key (tvCharLayers st) !! name = Some layers ->
                     layers <> []).
      { intros Hd. apply lookup_delete_Some in Hd as [_ Hd].
        by apply (Hst TopView) in Hd. }
      destruct (Z.leb 0 index); [| done].
      destruct (Nat.ltb_spec (length (List.filter (keepsIndex index) chArr)) 1)
        as [Hlen | Hlen]; [done |].
      destruct (decide (name = key)) as [-> | Hname].
      * rewrite lookup_insert_eq. intros [= <-] Hnil.
        rewrite Hnil in Hlen. simpl in Hlen. lia.
      * rewrite lookup_insert_ne by done. apply (Hst TopView).
    + rewrite layersOf_setLayers_ne by done. apply Hst.
Qed.

Lemma all_nonempty_initial : all_nonempty initialState.
Proof. intros [] name layers Hk; simpl in Hk; by rewrite lookup_empty in Hk. Qed.

Lemma commands_keep_entries_nonempty_witness :
  (forall fuel ty info source destination st',
      addLayer fuel ty info source destination initialState = Some st' ->
      all_nonempty st')
  /\ (forall ty name, all_nonempty (removeLayers ty name initialState))
  /\ (forall key index, all_nonempty (removeTvLayers key index initialState)).
Proof.
  apply (commands_keep_entries_nonempty initialState).
  exact all_nonempty_initial.
Defined.

(** *** Cache keys *)

(** X6.  The cache key [prefix + filename] tells the type and the file name
    apart: two keys are equal only for the same type and the same name, so
    a face and a picture of one name never share a cache entry. *)
Theorem cache_key_injective (ty ty' : LayerType) (name name' : string) :
  String.append (prefixOf ty) name = String.append (prefixOf ty') name'
  <-> ty = ty' /\ name = name'.
Proof.
  split; [| by intros [-> ->]].
  destruct ty, ty'; cbn; intros H; by simplify_eq.
Qed.

Lemma prefix_other_type ty ty' name :
  ty <> ty' ->
  String.prefix (prefixOf ty) (String.append (prefixOf ty') name) = false.
Proof. destruct ty, ty'; intros Hne; try done; reflexivity. Qed.

Lemma prefix_own_type ty name :
  String.prefix (prefixOf ty) (String.append (prefixOf ty) name) = true.
Proof. destruct ty; cbn; by destruct name. Qed.

(** X7.  [invalidateCachedComposites] never adds or changes an entry, drops
    nothing cached under the key of another type, and under its own prefix
    drops the key of [owner] exactly when that bitmap lists [layerName]. *)
Theorem invalidation_touches_only_its_type
    (ty : LayerType) (layerName : string) (c : gmap string CacheEntry) :
  invalidateCachedComposites layerName (prefixOf ty) c ⊆ c
  /\ (forall ty' owner, ty' <> ty ->
        invalidateCachedComposites layerName (prefixOf ty) c
          !! String.append (prefixOf ty') owner
        = c !! String.append (prefixOf ty') owner)
  /\ (forall owner entry,
        c !! String.append (prefixOf ty) owner = Some entry ->
        invalidateCachedComposites layerName (prefixOf ty) c
          !! String.append (prefixOf ty) owner
        = if decide (layerName ∈ _images (bitmap entry)) then None
          else Some entry).
Proof.
  split; [apply map_filter_subseteq |]. split.
  - intros ty' owner Hne. apply option_eq. intros entry.
    rewrite invalidateCachedComposites_lookup. split; [by intros [H _] |].
    intros H. split; [done |]. intros [Hp _].
    rewrite prefix_other_type in Hp by done. discriminate.
  - intros owner entry Hk. case_decide as Hin.
    + apply eq_None_not_Some. intros [e He].
      apply invalidateCachedComposites_lookup in He as [He Hkeep].
      simplify_eq. apply Hkeep. split; [apply prefix_own_type | done].
    + apply invalidateCachedComposites_lookup. split; [done |].
      by intros [_ H].
Qed.

(** *** The commands that add several layers *)

Lemma addEach_None {A} (add : A -> State -> option State) items :
  foldl (fun acc item => acc ≫= add item) None items = None.
Proof. by induction items. Qed.

Lemma addEach_cons {A} (add : A -> State -> option State) item items st :
  addEach add (item :: items) st = add item st ≫= addEach add items.
Proof.
  unfold addEach. simpl. destruct (add item st); [done |]. apply addEach_None.
Qed.

Lemma addLayer_console_length fuel ty info source destination st st' :
  addLayer fuel ty info source destination st = Some st' ->
  (length (console st) <= length (console st'))%nat.
Proof.
  intros Hadd. apply addLayer_outcome in Hadd as [-> | [_ ->]].
  - by rewrite console_added.
  - rewrite console_logged. lia.
Qed.

Section AddEach.

Context {A : Type}.
Variable fuel : nat.
Variable ty : LayerType.
Variable toInfo : A -> LayerInfo.
Variable toSource : A -> string.
Variable destination : string.

(** The additions of one command: every item goes onto [destination]. *)
Definition addItem (item : A) : State -> option State :=
  addLayer fuel ty (toInfo item) (toSource item) destination.

Lemma addEach_console_length items :
  forall st st',
    addEach addItem items st = Some st' ->
    (length (console st) <= length (console st'))%nat.
Proof.
  induction items as [|item items IH]; intros st st'.
  - by intros [= <-].
  - rewrite addEach_cons. destruct (addItem item st) as [st1|] eqn:H1; [| done].
    simpl. intros Hrest. apply IH in Hrest.
    apply addLayer_console_length in H1. lia.
Qed.

Lemma addEach_accepted items :
  forall st st',
    addEach addItem items st = Some st' ->
    accepted st st' ->
    default [] (layersOf ty st' !! destination)
    = default [] (layersOf ty st !! destination) ++ map toInfo items
    /\ (forall name, name <> destination ->
          layersOf ty st' !! name = layersOf ty st !! name)
    /\ (forall ty', ty' <> ty -> layersOf ty' st' = layersOf ty' st).
Proof.
  induction items as [|item items IH]; intros st st'.
  - intros [= <-] _. by rewrite app_nil_r.
  - rewrite addEach_cons. destruct (addItem item st) as [st1|] eqn:H1; [| done].
    simpl. intros Hrest Hacc. unfold accepted in Hacc.
    pose proof (addEach_console_length _ _ _ Hrest) as Hlen.
    pose proof H1 as Hout. apply addLayer_outcome in Hout as [-> | [_ ->]].
    + destruct (IH _ _ Hrest) as (Hdest & Hnames & Htypes).
      { unfold accepted. by rewrite console_added. }
      unfold added in Hdest, Hnames, Htypes.
      split; [| split].
      * rewrite Hdest, layersOf_setCache, layersOf_setLayers, lookup_insert_eq.
        simpl. by rewrite <- app_assoc.
      * intros name Hne. rewrite Hnames by done.
        by rewrite layersOf_setCache, layersOf_setLayers, lookup_insert_ne.
      * intros ty' Hne. rewrite Htypes by done.
        by rewrite layersOf_setCache, layersOf_setLayers_ne.
    + rewrite console_logged, Hacc in Hlen. lia.
Qed.

End AddEach.

(** X8.  [addFaceLayers] stacks the layers of its argument in reverse: when
    the command returns without logging a rejection, the destination's
    layers are the ones it had followed by the listed layers from the last
    to the first; the other names and the other types are untouched. *)
Theorem addFaceLayers_stacks_in_reverse
    (fuel : nat) (layerInfos : list FaceLayerArg) (destination : string)
    (st st' : State) :
  addFaceLayers fuel (Some layerInfos) destination st = Some st' ->
  accepted st st' ->
  default [] (faceLayers st' !! destination)
  = default [] (faceLayers st !! destination)
    ++ reverse (map (fun info => FaceInfo (arg_source info) (arg_sourceIndex info))
                    layerInfos)
  /\ (forall name, name <> destination ->
        faceLayers st' !! name = faceLayers st !! name)
  /\ tvCharLayers st' = tvCharLayers st
  /\ svCharLayers st' = svCharLayers st
  /\ picLayers st' = picLayers st.
Proof.
  unfold addFaceLayers, addFaceLayer. intros Hrun Hacc.
  destruct (addEach_accepted fuel Face
              (fun info => FaceInfo (arg_source info) (arg_sourceIndex info))
              arg_source destination (reverse layerInfos) st st' Hrun Hacc)
    as (Hdest & Hnames & Htypes).
  split; [| split; [done |]].
  - cbn [layersOf] in Hdest. by rewrite Hdest, fmap_reverse.
  - split; [apply (Htypes TopView); done |].
    split; [apply (Htypes SideView); done | apply (Htypes Picture); done].
Qed.

Lemma addFaceLayers_stacks_in_reverse_witness :
  let st' :=
    mkState {[ "Hero" := [FaceInfo "Hat" 1; FaceInfo "Body" 0] ]} ∅ ∅ ∅ ∅ 0 [] in
  default [] (faceLayers st' !! "Hero")
  = default [] (faceLayers initialState !! "Hero")
    ++ reverse (map (fun info => FaceInfo (arg_source info) (arg_sourceIndex info))
                    [mkFaceLayerArg "Body" 0; mkFaceLayerArg "Hat" 1])
  /\ (forall name, name <> "Hero" ->
        faceLayers st' !! name = faceLayers initialState !! name)
  /\ tvCharLayers st' = tvCharLayers initialState
  /\ svCharLayers st' = svCharLayers initialState
  /\ picLayers st' = picLayers initialState.
Proof.
  apply (addFaceLayers_stacks_in_reverse 2
           [mkFaceLayerArg "Body" 0; mkFaceLayerArg "Hat" 1] "Hero"
           initialState).
  - vm_compute. reflexivity.
  - reflexivity.
Defined.

(** *** Loading a composite that is layered from itself *)

(** The loop of [_startLoading] over the image names. *)
Definition startLoading (loader : string -> State -> option (Image * State))
    : list string -> State -> option State :=
  fix go (imgs : list string) (s : State) : option State :=
    match imgs with
    | [] => Some s
    | img :: rest =>
      match loader img s with
      | None => None
      | Some (_, s') => go rest s'
      end
    end.

(** The state once the constructor took the next bitmap identity. *)
Definition tookIdentity (st : State) : State :=
  mkState (faceLayers st) (tvCharLayers st) (svCharLayers st) (picLayers st)
          (cache st) (S (nextBitmap st)) (console st).

Lemma Composite_Bitmap_new_unfold loader layerInfos st :
  Composite_Bitmap_new loader layerInfos st
  = match startLoading loader (map filename layerInfos) (tookIdentity st) with
    | None => None
    | Some st1 =>
      Some (mkBitmap (nextBitmap st) (map filename layerInfos), st1)
    end.
Proof. reflexivity. Qed.

Section SelfLayered.

Variable JsonEx_stringify : list LayerInfo -> string.
Variable ty : LayerType.
Variable name : string.

(** [name] is one of its own layers, and the cache holds no bitmap of it
    built from its present layers. *)
Definition self_layered (st : State) : Prop :=
  exists layers,
    layersOf ty st !! name = Some layers
    /\ name ∈ map filename layers
    /\ forall entry,
         cache st !! String.append (prefixOf ty) name = Some entry ->
         config entry <> JsonEx_stringify layers.

Lemma self_layered_same st st' :
  layersOf ty st' = layersOf ty st ->
  cache st' !! String.append (prefixOf ty) name
  = cache st !! String.append (prefixOf ty) name
  \/ cache st' !! String.append (prefixOf ty) name = None ->
  self_layered st -> self_layered st'.
Proof.
  intros Hl Hc (layers & Hk & Hin & Hcfg). exists layers.
  rewrite Hl. split; [done |]. split; [done |].
  intros entry He. destruct Hc as [Hc | Hc]; rewrite Hc in He; [by apply Hcfg | done].
Qed.

Lemma startLoading_self_layered loader :
  (forall st, self_layered st -> loader name st = None) ->
  (forall img st i st',
      self_layered st -> loader img st = Some (i, st') -> self_layered st') ->
  forall imgs st,
    self_layered st ->
    (name ∈ imgs -> startLoading loader imgs st = None)
    /\ (forall st', startLoading loader imgs st = Some st' -> self_layered st').
Proof.
  intros Hname Hkeep. induction imgs as [|img imgs IH]; intros st Hst.
  - split; [intros H; by apply elem_of_nil in H | by intros st' [= <-]].
  - cbn [startLoading].
    destruct (loader img st) as [[i st1]|] eqn:Hload.
    + destruct (IH st1 (Hkeep _ _ _ _ Hst Hload)) as [Hnone Hsome].
      split; [| done]. intros Hin.
      apply elem_of_cons in Hin as [<- | Hin]; [| by apply Hnone].
      rewrite Hname in Hload by done. discriminate.
    + split; [done | by intros st' H].
Qed.

Lemma load_self_layered fuel :
  (forall st, self_layered st ->
     ImageManager_load JsonEx_stringify fuel ty name st = None)
  /\ (forall img st i st',
        self_layered st ->
        ImageManager_load JsonEx_stringify fuel ty img st = Some (i, st') ->
        self_layered st').
Proof.
  induction fuel as [|fuel [IHname IHkeep]]; [by split |].
  pose proof (startLoading_self_layered
                (ImageManager_load JsonEx_stringify fuel ty) IHname IHkeep)
    as Hloop.
  assert (Hbuild : forall layerInfos st0,
            self_layered st0 ->
            (name ∈ map filename layerInfos ->
             Composite_Bitmap_new (ImageManager_load JsonEx_stringify fuel ty)
               layerInfos st0 = None)
            /\ (forall b st1,
                  Composite_Bitmap_new (ImageManager_load JsonEx_stringify fuel ty)
                    layerInfos st0 = Some (b, st1) ->
                  self_layered st1)).
  { intros layerInfos st0 Hst0. rewrite Composite_Bitmap_new_unfold.
    destruct (Hloop (map filename layerInfos) (tookIdentity st0)) as [Hnone Hsome].
    { eapply self_layered_same; [| | exact Hst0]; [by destruct ty | by left]. }
    split.
    - intros Hin. by rewrite Hnone.
    - intros b st1. destruct (startLoading _ _ _) as [s|]; [| done].
      intros [= _ <-]. by apply Hsome. }
  assert (Hname : forall st, self_layered st ->
            ImageManager_load JsonEx_stringify (S fuel) ty name st = None).
  { intros st Hst. pose proof Hst as (layers & Hk & Hin & Hcfg).
    cbn [ImageManager_load]. rewrite Hk. unfold setupComposite.
    destruct (cache st !! String.append (prefixOf ty) name) as [cached|] eqn:Hc.
    - destruct (String.eqb_spec (config cached) (JsonEx_stringify layers))
        as [Heq | _]; [by apply Hcfg in Heq |].
      destruct (Hbuild layers
                  (setCache (delete (String.append (prefixOf ty) name) (cache st)) st))
        as [Hnone _].
      { eapply self_layered_same; [| | exact Hst];
          [apply layersOf_setCache | right; apply lookup_delete_eq]. }
      by rewrite Hnone.
    - destruct (Hbuild layers st Hst) as [Hnone _]. by rewrite Hnone. }
  split; [exact Hname |].
  intros img st i st' Hst.
  destruct (decide (img = name)) as [-> | Hne]; [by rewrite Hname |].
  assert (Hkey : String.append (prefixOf ty) img
                 <> String.append (prefixOf ty) name).
  { intros H. apply Hne. by destruct ty; cbn in H; simplify_eq. }
  cbn [ImageManager_load].
  destruct (layersOf ty st !! img) as [layerInfos|]; [| by intros [= _ <-]].
  assert (Hafter : forall st0,
    self_layered st0 ->
    match
      match Composite_Bitmap_new (ImageManager_load JsonEx_stringify fuel ty)
              layerInfos st0 with
      | None => None
      | Some (compBmp, st1) =>
        Some (compBmp,
              setCache (<[String.append (prefixOf ty) img
                          := mkEntry compBmp (JsonEx_stringify layerInfos)]>
                          (cache st1)) st1)
      end
    with
    | None => None
    | Some (b, s) => Some (CompositeImage b, s)
    end = Some (i, st') -> self_layered st').
  { intros st0 Hst0. destruct (Hbuild layerInfos st0 Hst0) as [_ Hsome].
    destruct (Composite_Bitmap_new _ _ _) as [[b st1]|]; [| done].
    intros [= _ <-]. eapply self_layered_same; [| | exact (Hsome _ _ eq_refl)].
    - apply layersOf_setCache.
    - left. simpl. by rewrite lookup_insert_ne. }
  unfold setupComposite.
  destruct (cache st !! String.append (prefixOf ty) img) as [cached|].
  - destruct (String.eqb (config cached) (JsonEx_stringify layerInfos)).
    + by intros [= _ <-].
    + apply Hafter. eapply self_layered_same; [| | exact Hst].
      * apply layersOf_setCache.
      * left. simpl. by rewrite lookup_delete_ne.
  - by apply Hafter.
Qed.

End SelfLayered.

(** X9.  A composite that has itself among its layers can never be loaded:
    while the cache holds no bitmap built from its present layers, the
    patched image loader ([loadFace], [loadCharacter], [loadSvActor],
    [loadPicture]) gives no result for its name at any depth of the call
    stack, because building the bitmap asks for the same name again before
    anything is put in the cache. *)
Theorem self_layered_composite_never_loads
    (JsonEx_stringify : list LayerInfo -> string) (fuel : nat)
    (ty : LayerType) (name : string) (layers : list LayerInfo) (st : State) :
  layersOf ty st !! name = Some layers ->
  name ∈ map filename layers ->
  (forall entry,
      cache st !! String.append (prefixOf ty) name = Some entry ->
      config entry <> JsonEx_stringify layers) ->
  ImageManager_load JsonEx_stringify fuel ty name st = None.
Proof.
  intros Hk Hin Hcfg.
  apply (load_self_layered JsonEx_stringify ty name fuel).
  exists layers. done.
Qed.

Lemma self_layered_composite_never_loads_witness :
  ImageManager_load sampleStringify 50 Face "A" selfLayeredState = None.
Proof.
  apply (self_layered_composite_never_loads sampleStringify 50 Face "A"
           [FaceInfo "A" 0] selfLayeredState).
  - reflexivity.
  - simpl. set_solver.
  - intros entry H. simpl in H. rewrite lookup_empty in H. discriminate H.
Defined.

(** *** Flattening *)

Section FlattenMore.

Variable compList : LayerDict.

(** A layer info that some composite of the dictionary lists. *)
Definition listed (info : LayerInfo) : Prop :=
  exists owner layers, compList !! owner = Some layers /\ info ∈ layers.

Lemma recursivelyFlatten_listed fuel :
  forall layerInfos parentNames flat,
    recursivelyFlatten fuel layerInfos compList parentNames = Some flat ->
    forall info, info ∈ flat -> info ∈ layerInfos \/ listed info.
Proof.
  induction fuel as [|fuel IH]; intros layerInfos parentNames flat; [done |].
  rewrite recursivelyFlatten_S. revert flat.
  induction layerInfos as [|first rest IHrest]; intros flat; cbn [flattenEach].
  - intros [= <-] info Hin. by apply elem_of_nil in Hin.
  - assert (Hrest : forall r,
              flattenEach fuel compList parentNames rest = Some r ->
              forall info, info ∈ r -> info ∈ first :: rest \/ listed info).
    { intros r Hr info Hin. destruct (IHrest r Hr info Hin) as [H | H];
        [left; by right | by right]. }
    destruct (decide (filename first ∈ parentNames)); [by apply Hrest |].
    destruct (compList !! filename first) as [listEntry|] eqn:Hk.
    + destruct (recursivelyFlatten fuel listEntry compList _) as [sub|] eqn:Hsub;
        [| done].
      destruct (flattenEach fuel compList parentNames rest) as [r|]; [| done].
      intros [= <-] info Hin. apply elem_of_app in Hin as [Hin | Hin].
      * right. destruct (IH _ _ _ Hsub info Hin) as [H | H]; [| done].
        by exists (filename first), listEntry.
      * by apply (Hrest r).
    + destruct (flattenEach fuel compList parentNames rest) as [r|]; [| done].
      intros [= <-] info Hin. apply elem_of_cons in Hin as [-> | Hin].
      * left. by left.
      * by apply (Hrest r).
Qed.


End FlattenMore.

(** X10.  [flattenLayerInfos] invents no layer: every entry of the list it
    returns is a layer info that some composite of the dictionary lists,
    with its file name and its index as they are there. *)
Theorem flattenLayerInfos_invents_nothing
    (fuel : nat) (name : string) (compList : LayerDict)
    (flat : list LayerInfo) (info : LayerInfo) :
  flattenLayerInfos fuel name compList = Some flat ->
  info ∈ flat ->
  listed compList info.
Proof.
  unfold flattenLayerInfos.
  destruct (compList !! name) as [layerInfos|] eqn:Hk.
  - intros Hflat Hin.
    destruct (recursivelyFlatten_listed compList fuel _ _ _ Hflat info Hin)
      as [H | H]; [| done].
    by exists name, layerInfos.
  - intros [= <-] Hin. by apply elem_of_nil in Hin.
Qed.

Lemma flattenLayerInfos_invents_nothing_witness :
  flattenLayerInfos 5 "F" (faceLayers cachedFaces) = Some [FaceInfo "X" 0]
  /\ listed (faceLayers cachedFaces) (FaceInfo "X" 0).
Proof.
  assert (H : flattenLayerInfos 5 "F" (faceLayers cachedFaces) = Some [FaceInfo "X" 0])
    by (by vm_compute).
  split; [exact H |].
  apply (flattenLayerInfos_invents_nothing 5 "F" (faceLayers cachedFaces)
           [FaceInfo "X" 0] (FaceInfo "X" 0) H).
  by left.
Defined.



End CompositeBitmapsMore.

(* ===================================================================== *)
(** * Move-route transforms: durations, bounds and the commands *)
(* ===================================================================== *)

Module MoveRouteTFMore.
Import MoveRouteTF MoveRouteTFFacts.

Local Open Scope Q_scope.

(** X12.  A tween whose duration is not above zero never moves: when
    [0 < duration] is false (a duration of 0, a negative one, or NaN on the
    numbers the code runs on), no number of update ticks changes the
    transform, so the current value stays what it was and the target is
    never shown.  This holds for any arithmetic. *)
Theorem tween_without_duration_never_moves
    {N : Type} {num : Number N} (tf : Transform N) (s g d : N) (n : nat) :
  num_lt num_zero d = false ->
  ticks n (setTarget tf s g d) = setTarget tf s g d.
Proof.
  intros Hd. induction n as [|n IH]; [reflexivity |].
  cbn [ticks]. rewrite IH. unfold updateTransform, needsUpdate.
  cbn [time duration setTarget]. by rewrite Hd.
Qed.

Lemma tween_without_duration_never_moves_witness :
  ticks 60 (setTarget (num := binary64) initialOffset 0%float 90%float 0%float)
  = setTarget initialOffset 0%float 90%float 0%float.
Proof.
  apply (tween_without_duration_never_moves (num := binary64)
           initialOffset 0%float 90%float 0%float 60).
  reflexivity.
Defined.

Section Run.

Variable tf : Transform Q.
Variables s g d : Q.





End Run.













End MoveRouteTFMore.

(* ===================================================================== *)
(** * Conditional faces: the sets, the conditions and the wrappers *)
(* ===================================================================== *)

Module ConditionalFacesMore.
Import ConditionalFaces ConditionalFacesFacts.











(** *** The set conditions *)

Lemma isAnyTrue_push g cond block :
  isAnyTrue g (push cond block)
  = existsb (isTrue g) (_conditions block) || isTrue g cond.
Proof.
  unfold isAnyTrue, push. cbn [_conditions].
  destruct (_conditions block) as [|c conds]; cbn [app existsb].
  - by rewrite orb_false_r.
  - by rewrite existsb_app, orb_assoc; cbn [existsb]; rewrite orb_false_r.
Qed.

Lemma isAnyTrue_push_true g cond block :
  isAnyTrue g (push cond block) = true
  <-> (exists c, c ∈ _conditions block /\ isTrue g c = true)
      \/ isTrue g cond = true.
Proof.
  rewrite isAnyTrue_push, orb_true_iff, existsb_exists.
  split; (intros [(c & Hin & Hc) | H]; [left | by right]);
    exists c; split; try done; by apply list_elem_of_In.
Qed.

Lemma switchSet_true g numList truthVal :
  isTrue g (SwitchSetCondition (elements (getSetFromNumList numList)) truthVal)
  = true
  <-> exists switchId,
        switchId ∈ getSetFromNumList numList
        /\ gameSwitches g switchId = truthVal.
Proof.
  cbn [isTrue]. rewrite existsb_exists. split.
  - intros (x & Hin & Hx). exists x. split.
    + by apply elem_of_elements, list_elem_of_In.
    + by apply Bool.eqb_true_iff.
  - intros (x & Hin & Hx). exists x. split.
    + by apply list_elem_of_In, elem_of_elements.
    + by apply Bool.eqb_true_iff.
Qed.

Lemma stateSet_true g numList actor truthVal :
  isTrue g (StateSetCondition (getSetFromNumList numList) actor truthVal)
  = true
  <-> exists state,
        state ∈ states (gameActors g actor)
        /\ (state ∈ getSetFromNumList numList <-> truthVal = true).
Proof.
  cbn [isTrue]. rewrite existsb_exists. split.
  - intros (x & Hin & Hx). exists x. split; [by apply list_elem_of_In |].
    apply Bool.eqb_prop in Hx. subst truthVal. symmetry.
    apply bool_decide_eq_true.
  - intros (x & Hin & Hx). exists x. split; [by apply list_elem_of_In |].
    apply Bool.eqb_true_iff. destruct truthVal.
    + apply bool_decide_eq_true. by apply Hx.
    + apply bool_decide_eq_false. intros H. by apply Hx in H.
Qed.

(** X18.  A block to which a set condition was added passes when an
    earlier condition of it passes, or: for [switchset] when one listed
    switch is on, for [!switchset] when one listed switch is off, for
    [stateset] when the actor has one state of the set, for [!stateset]
    when the actor has one state outside the set.  The list is read by
    [getSetFromNumList]. *)
Theorem set_conditions_ask_for_one_member
    (g : Game) (numList : string) (invert : bool)
    (block : Face_Condition_Block) :
  (isAnyTrue g (addSwitchSetCondition numList invert block) = true
   <-> (exists cond, cond ∈ _conditions block /\ isTrue g cond = true)
       \/ exists switchId,
            switchId ∈ getSetFromNumList numList
            /\ gameSwitches g switchId = negb invert)
  /\ (isAnyTrue g (addStateSetCondition numList invert block) = true
      <-> (exists cond, cond ∈ _conditions block /\ isTrue g cond = true)
          \/ exists state,
               state ∈ states (gameActors g (block_actorId block))
               /\ (state ∈ getSetFromNumList numList <-> invert = false)).
Proof.
  split.
  - unfold addSwitchSetCondition.
    by rewrite isAnyTrue_push_true, switchSet_true.
  - unfold addStateSetCondition.
    rewrite isAnyTrue_push_true, stateSet_true.
    by setoid_rewrite negb_true_iff.
Qed.

(** X19.  [!switchset] is the negation of [switchset] only for a uniform
    list: alone in their blocks, the two give opposite answers exactly when
    the list names at least one switch and all the switches it names have
    the same value.  With no switch named both fail, and with one named
    switch on and another off both pass. *)
Theorem inverted_switch_set_negates_only_uniform_lists
    (g : Game) (numList : string) (actor : Z) :
  let plain :=
    isAnyTrue g (addSwitchSetCondition numList false (mkBlock actor [])) in
  let inverted :=
    isAnyTrue g (addSwitchSetCondition numList true (mkBlock actor [])) in
  inverted = negb plain
  <-> getSetFromNumList numList <> ∅
      /\ forall a b,
           a ∈ getSetFromNumList numList -> b ∈ getSetFromNumList numList ->
           gameSwitches g a = gameSwitches g b.
Proof.
  intros plain inverted.
  assert (Hplain : plain = true
                   <-> exists x, x ∈ getSetFromNumList numList
                                 /\ gameSwitches g x = true).
  { unfold plain, addSwitchSetCondition.
    rewrite isAnyTrue_push_true, switchSet_true. cbn [_conditions negb].
    split; [| by right].
    intros [(c & Hin & _) | H]; [by apply elem_of_nil in Hin | done]. }
  assert (Hinv : inverted = true
                 <-> exists x, x ∈ getSetFromNumList numList
                               /\ gameSwitches g x = false).
  { unfold inverted, addSwitchSetCondition.
    rewrite isAnyTrue_push_true, switchSet_true. cbn [_conditions negb].
    split; [| by right].
    intros [(c & Hin & _) | H]; [by apply elem_of_nil in Hin | done]. }
  clearbody plain inverted. split.
  - intros Heq. split.
    + intros Hempty.
      destruct plain; cbn in Heq.
      * destruct Hplain as [Hp _].
        destruct (Hp eq_refl) as (x & Hx & _).
        rewrite Hempty in Hx. by apply elem_of_empty in Hx.
      * destruct Hinv as [Hi _].
        destruct (Hi Heq) as (x & Hx & _).
        rewrite Hempty in Hx. by apply elem_of_empty in Hx.
    + intros a b Ha Hb.
      destruct (gameSwitches g a) eqn:Ea, (gameSwitches g b) eqn:Eb;
        try done; exfalso.
      * assert (Hp : plain = true) by (apply Hplain; eauto).
        assert (Hi : inverted = true) by (apply Hinv; eauto).
        rewrite Hp, Hi in Heq. discriminate.
      * assert (Hp : plain = true) by (apply Hplain; eauto).
        assert (Hi : inverted = true) by (apply Hinv; eauto).
        rewrite Hp, Hi in Heq. discriminate.
  - intros [Hne Hsame].
    apply set_choose_L in Hne as [x Hx].
    destruct (gameSwitches g x) eqn:Ex.
    + assert (Hp : plain = true) by (apply Hplain; eauto).
      rewrite Hp. cbn. apply not_true_is_false. intros Hi.
      apply Hinv in Hi as (y & Hy & Ey).
      rewrite (Hsame x y Hx Hy), Ey in Ex. discriminate.
    + assert (Hi : inverted = true) by (apply Hinv; eauto).
      rewrite Hi. symmetry. apply negb_true_iff, not_true_is_false.
      intros Hp. apply Hplain in Hp as (y & Hy & Ey).
      rewrite (Hsame x y Hx Hy), Ey in Ex. discriminate.
Qed.

(** *** The choice of the face *)

Lemma find_first {A} (f : A -> bool) (before after : list A) (x : A) :
  Forall (fun y => f y = false) before -> f x = true ->
  List.find f (before ++ x :: after) = Some x.
Proof.
  intros Hb Hx. induction Hb as [|y before Hy _ IH]; cbn.
  - by rewrite Hx.
  - by rewrite Hy.
Qed.

(** X20.  [drawActorFace] draws the face of the first list of the actor
    all of whose blocks pass: the lists after it are not looked at, so a
    face added with no condition lines, which has no block and always
    passes, hides every face added after it. *)
Theorem first_satisfied_face_is_drawn
    (actorToCondList : gmap Z (list Face_Condition_List)) (g : Game)
    (actor : Game_Actor) (before after : list Face_Condition_List)
    (condList : Face_Condition_List) :
  actorToCondList !! actorId actor = Some (before ++ condList :: after) ->
  _faceConditionEnabled actor = true ->
  Forall (fun l => isAllConditionsTrue g l = false) before ->
  isAllConditionsTrue g condList = true ->
  drawActorFace actorToCondList g actor
  = (faceName g condList, _faceIndex condList).
Proof.
  intros Hlists Hen Hbefore Hsat. unfold drawActorFace.
  by rewrite Hlists, Hen, (find_first _ _ _ _ Hbefore Hsat).
Qed.

(** An actor asleep (state 10), with switch 4 off. *)
Definition sleeper : Game_Actor := mkActor 1 [10] "sleep" "Actor1" 0 true.
Definition sampleGame : Game := mkGame (fun _ => false) (fun _ => sleeper).

(** The lists of a note: face 1 when switch 4 is on, face 2 with no
    condition, face 3 of another file when the actor has state 10. *)
Definition sampleFaces : list Face_Condition_List :=
  [ addConditionBlock (addSwitchCondition 4 false (mkBlock 1 []))
      (mkCondList 1 1 "" []);
    mkCondList 1 2 "" [];
    addConditionBlock (addStateCondition 10 false (mkBlock 1 []))
      (mkCondList 1 3 "Asleep" []) ].

Lemma first_satisfied_face_is_drawn_witness :
  drawActorFace {[ 1 := sampleFaces ]} sampleGame sleeper = ("Actor1", 2)
  /\ isAllConditionsTrue sampleGame
       (addConditionBlock (addStateCondition 10 false (mkBlock 1 []))
          (mkCondList 1 3 "Asleep" [])) = true.
Proof.
  split; [| reflexivity].
  apply (first_satisfied_face_is_drawn {[ 1 := sampleFaces ]} sampleGame
           sleeper
           [addConditionBlock (addSwitchCondition 4 false (mkBlock 1 []))
              (mkCondList 1 1 "" [])]
           [addConditionBlock (addStateCondition 10 false (mkBlock 1 []))
              (mkCondList 1 3 "Asleep" [])]
           (mkCondList 1 2 "" [])).
  - reflexivity.
  - reflexivity.
  - by repeat constructor.
  - reflexivity.
Defined.

(** *** [extractWrappers] *)

Lemma scanBlock_stuck (s : string) (openingChar closingChar : ascii) :
  closingChar = openingChar
  \/ (forall j, String.get j s <> Some closingChar) ->
  forall fuel pos openCounter,
    scanBlock fuel s openingChar closingChar pos 0 (S openCounter) = None.
Proof.
  intros Hclose. induction fuel as [|fuel IH]; intros pos openCounter;
    cbn [scanBlock Nat.ltb Nat.leb]; [done |].
  case_bool_decide as Hopen; [by apply IH |].
  case_bool_decide as Hc; [| by apply IH].
  exfalso. destruct Hclose as [-> | Hnone]; [done | by apply (Hnone (S pos))].
Qed.

(** X21.  [extractWrappers] never returns on a text that holds the opening
    character when the closing character is the same character, or does
    not occur in the text: the inner loop counts such a character as
    another opening, or finds nothing to count, and runs on past the end
    of the text.  The call for the quoted arguments of [compare] passes the
    double quote for both. *)
Theorem extractWrappers_never_returns
    (fuel : nat) (s : string) (openingChar closingChar : ascii)
    (placeholderBase placeholderPre placeholderPost : string) :
  is_Some (indexOf s openingChar 0) ->
  closingChar = openingChar
  \/ (forall j, String.get j s <> Some closingChar) ->
  extractWrappers fuel s openingChar closingChar placeholderBase
                  placeholderPre placeholderPost = None.
Proof.
  intros [openIndex Hopen] Hclose. unfold extractWrappers.
  destruct fuel as [|fuel]; [done |].
  cbn [extractLoop]. rewrite Hopen.
  by rewrite (scanBlock_stuck s openingChar closingChar Hclose).
Qed.

(** The double quote. *)
Definition quote : ascii := "034"%char.

(** The arguments [hp > "a b"] of a [compare]. *)
Definition quotedArgs : string :=
  String.append "hp > " (String quote (String.append "a b" (String quote ""))).

Lemma extractWrappers_never_returns_witness :
  extractWrappers 1000 quotedArgs quote quote "arg" "undefined" "undefined"
  = None.
Proof.
  apply (extractWrappers_never_returns 1000 quotedArgs quote quote "arg"
           "undefined" "undefined").
  - by exists 5%nat.
  - by left.
Defined.

Section OnePlaceholder.

Variable s : string.
Variables openingChar closingChar : ascii.
Variable placeholderBase : string.

(** The map has no entry, or one under the key of counter 0. *)
Definition at_most_code0 (m : list (string * string)) : Prop :=
  m = [] \/ exists text, m = [(String.append placeholderBase "0", text)].

Lemma extractLoop_at_most_code0 fuel :
  forall pos m m',
    at_most_code0 m ->
    extractLoop fuel s openingChar closingChar placeholderBase 0 pos m
    = Some m' ->
    at_most_code0 m'.
Proof.
  induction fuel as [|fuel IH]; intros pos m m' Hm; cbn [extractLoop];
    [done |].
  destruct (indexOf s openingChar pos) as [openIndex|]; [| by intros [= <-]].
  destruct (scanBlock fuel s openingChar closingChar openIndex 0 1)
    as [pos'|]; [| done].
  apply IH. right.
  destruct Hm as [-> | [text ->]]; cbn [Map_set]; [by eexists |].
  change (numberToString 0) with "0". rewrite String.eqb_refl. by eexists.
Qed.

End OnePlaceholder.

(** X22.  [extractWrappers] hands back at most one placeholder, whatever
    the number of wrapped blocks: the counter appended to the placeholder
    is never advanced, so every block is stored under the key of counter 0
    and the last one stays.  The text returned is the text given with, at
    most, the first occurrence of that one block replaced; a block before
    it is left in the text as it was. *)
Theorem extractWrappers_one_placeholder
    (fuel : nat) (s : string) (openingChar closingChar : ascii)
    (placeholderBase placeholderPre placeholderPost : string)
    (result : Extracted) :
  extractWrappers fuel s openingChar closingChar placeholderBase
                  placeholderPre placeholderPost = Some result ->
  (blockMap result = [] /\ newStr result = s)
  \/ exists text,
       blockMap result = [(String.append placeholderBase "0", text)]
       /\ newStr result
          = replace
              (String openingChar
                 (String.append text (String closingChar EmptyString)))
              (String.append placeholderPre
                 (String.append (String.append placeholderBase "0")
                                placeholderPost))
              s.
Proof.
  unfold extractWrappers.
  destruct (extractLoop fuel s openingChar closingChar placeholderBase 0 0 [])
    as [finalMap|] eqn:Hloop; [| done].
  intros [= <-]. cbn [blockMap newStr].
  apply extractLoop_at_most_code0 in Hloop as [-> | [text ->]];
    [by left | by right; exists text | by left].
Qed.

(** A note with two blocks of code. *)
Definition twoBlocks : string := "eval {a > 1} || eval {b}".

Lemma extractWrappers_one_placeholder_witness :
  extractWrappers 40 twoBlocks "{" "}" "code" "" "!"
  = Some (mkExtracted "eval {a > 1} || eval code0!" [("code0", "b")])
  /\ ((blockMap (mkExtracted "eval {a > 1} || eval code0!" [("code0", "b")])
       = []
       /\ newStr (mkExtracted "eval {a > 1} || eval code0!" [("code0", "b")])
          = twoBlocks)
      \/ exists text,
           blockMap (mkExtracted "eval {a > 1} || eval code0!"
                                 [("code0", "b")])
           = [(String.append "code" "0", text)]
           /\ newStr (mkExtracted "eval {a > 1} || eval code0!"
                                  [("code0", "b")])
              = replace
                  (String "{" (String.append text (String "}" EmptyString)))
                  (String.append ""
                     (String.append (String.append "code" "0") "!"))
                  twoBlocks).
Proof.
  assert (H : extractWrappers 40 twoBlocks "{" "}" "code" "" "!"
              = Some (mkExtracted "eval {a > 1} || eval code0!"
                                  [("code0", "b")]))
    by (by vm_compute).
  split; [exact H |].
  exact (extractWrappers_one_placeholder 40 twoBlocks "{" "}" "code" "" "!"
           _ H).
Defined.

End ConditionalFacesMore.

(* ===================================================================== *)
(** * Mirrors: the wall cache at large and the visibility of a reflection *)
(* ===================================================================== *)

Module MirrorsMore.
Import Mirrors MirrorsFacts.

(** Rows from the bottom of the map up: each one above the one before. *)
Definition bottomUp (col : list Z) : Prop :=
  StronglySorted (fun a b => b < a) col.

Lemma filter_countdown_bottomUp (keep : Z -> bool) n :
  bottomUp (List.filter keep (countdown n)).
Proof.
  induction n as [|k IH]; cbn [countdown List.filter]; [constructor |].
  destruct (keep (Z.of_nat k)); [| done].
  constructor; [done |]. apply Forall_forall. intros z Hz.
  apply list_elem_of_In, filter_In in Hz as [Hz _].
  apply countdown_range in Hz. lia.
Qed.

Section Walls.

Variable wallRegions : gset Z.
Variable map : GameMap.

Lemma wallRows_elem x j :
  0 <= x < width map ->
  j ∈ wallRows wallRegions map x <-> wallTile wallRegions map x j.
Proof.
  intros Hx. unfold wallRows, wallTile.
  rewrite list_elem_of_In, filter_In, downFrom_range, bool_decide_eq_true.
  tauto.
Qed.

(** X23.  The cache [buildCurrentMapCache] builds holds, for a column, an
    array only if the column has a wall tile; the array is then not empty,
    its entries are exactly the rows of the wall tiles of that column, and
    they are listed from the bottom of the map up, so that the first entry
    not below a row is the closest wall above it. *)
Theorem wall_cache_columns (x : Z) (col : list Z) :
  buildCurrentMapCache wallRegions map !! x = Some col ->
  col <> []
  /\ 0 <= x < width map
  /\ (forall j, j ∈ col <-> wallTile wallRegions map x j)
  /\ bottomUp col.
Proof.
  rewrite buildCurrentMapCache_lookup.
  destruct (decide (0 <= x < width map)) as [Hx | Hx]; [| done].
  destruct (wallRows wallRegions map x) as [|row rows] eqn:Hrows; [done |].
  intros [= <-]. split; [done |]. split; [done |]. split.
  - intros j. rewrite <- Hrows. by apply wallRows_elem.
  - rewrite <- Hrows. apply filter_countdown_bottomUp.
Qed.

(** The answer [getWallY] gives from a cache in step with the map. *)
Lemma getWallY_in_step x y c :
  in_step wallRegions map c ->
  exists wallY,
    (getWallY wallRegions map x y c).1 = Some wallY
    /\ closestWall wallRegions map x y wallY.
Proof.
  intros Hstep. unfold getWallY.
  set (c1 := if decide (currMapId c = mapId map) then c else _).
  assert (Hc1 : reflectWallPositions c1
                = Some (buildCurrentMapCache wallRegions map)).
  { unfold c1. case_decide; [by apply Hstep | done]. }
  rewrite Hc1.
  pose proof (lookup_closestWall wallRegions map x y) as Hclosest.
  destruct (buildCurrentMapCache wallRegions map !! x) as [col|]; [| by eauto].
  destruct (List.filter _ col); by eauto.
Qed.

Lemma closestWall_bounds x y wallY :
  closestWall wallRegions map x y wallY -> -1 <= wallY <= Z.max (-1) y.
Proof.
  intros [[-> _] | ((_ & Hh & _) & Hle & _)]; lia.
Qed.

(** X24.  With the cache in step with the map, the answers of [getWallY]
    for one column go up with the row asked for: for [y <= y'] the answer
    for [y] is at most the answer for [y'], each answer is [-1] or a row
    between 0 and the row asked for, and when the answer for [y'] is not
    below [y] the two answers are the same wall. *)
Theorem getWallY_monotone (x y y' : Z) (c : WallCache) :
  in_step wallRegions map c ->
  y <= y' ->
  exists wallY wallY',
    (getWallY wallRegions map x y c).1 = Some wallY
    /\ (getWallY wallRegions map x y' c).1 = Some wallY'
    /\ -1 <= wallY <= wallY'
    /\ (wallY = -1 \/ 0 <= wallY <= y)
    /\ (wallY' <= y -> wallY = wallY').
Proof.
  intros Hstep Hy.
  destruct (getWallY_in_step x y c Hstep) as (wallY & Hw & Hc).
  destruct (getWallY_in_step x y' c Hstep) as (wallY' & Hw' & Hc').
  exists wallY, wallY'. split; [done |]. split; [done |].
  destruct Hc as [[-> Hno] | (Htile & Hle & Hmax)];
    destruct Hc' as [[-> Hno'] | (Htile' & Hle' & Hmax')].
  - split; [lia |]. split; [by left | done].
  - pose proof Htile' as (Hx' & Hh' & Hr').
    split; [lia |]. split; [by left |].
    intros Hbelow. exfalso. by apply (Hno wallY' Hbelow).
  - exfalso. apply (Hno' wallY); [lia | done].
  - pose proof (Hmax' wallY ltac:(lia) Htile) as Hup.
    pose proof Htile as (Hx & Hh & Hr).
    split; [lia |]. split; [right; lia |].
    intros Hbelow. pose proof (Hmax wallY' Hbelow Htile'). lia.
Qed.

(** X25.  [getWallY] rebuilds the cache only when the map id differs from
    the recorded one: after any call the recorded id is the map's, a call
    that finds it so leaves the cache as it is, and so does every further
    call on that map, whose answer for the same tile is the same. *)
Theorem getWallY_rebuilds_only_on_map_change (x y x' y' : Z) (c : WallCache) :
  let c' := (getWallY wallRegions map x y c).2 in
  currMapId c' = mapId map
  /\ (currMapId c = mapId map -> c' = c)
  /\ (currMapId c <> mapId map ->
      c' = mkWallCache (Some (buildCurrentMapCache wallRegions map))
                       (mapId map))
  /\ (getWallY wallRegions map x' y' c').2 = c'
  /\ (getWallY wallRegions map x y c').1 = (getWallY wallRegions map x y c).1.
Proof.
  assert (Hsnd : forall a b d,
            (getWallY wallRegions map a b d).2
            = if decide (currMapId d = mapId map) then d
              else mkWallCache (Some (buildCurrentMapCache wallRegions map))
                               (mapId map)).
  { intros a b d. unfold getWallY.
    destruct (decide (currMapId d = mapId map)); cbn zeta;
      repeat case_match; reflexivity. }
  assert (Hid : currMapId (getWallY wallRegions map x y c).2 = mapId map).
  { rewrite Hsnd. by case_decide. }
  cbv zeta. split; [done |]. split; [| split; [| split]].
  - intros Heq. rewrite Hsnd. by rewrite decide_True.
  - intros Hne. rewrite Hsnd. by rewrite decide_False.
  - rewrite (Hsnd x' y'). by rewrite decide_True.
  - rewrite Hsnd. unfold getWallY.
    destruct (decide (currMapId c = mapId map)) as [Heq | Hne].
    + by rewrite decide_True.
    + cbn [currMapId]. by rewrite decide_True.
Qed.

End Walls.

Lemma wall_cache_columns_witness :
  buildCurrentMapCache {[1]} corridor !! 0 = Some [0]
  /\ ([0] <> []
      /\ 0 <= 0 < width corridor
      /\ (forall j, j ∈ [0] <-> wallTile {[1]} corridor 0 j)
      /\ bottomUp [0]).
Proof.
  assert (H : buildCurrentMapCache {[1]} corridor !! 0 = Some [0])
    by (by vm_compute).
  split; [exact H |].
  exact (wall_cache_columns {[1]} corridor 0 [0] H).
Defined.

Lemma getWallY_monotone_witness :
  exists wallY wallY',
    (getWallY {[1]} corridor 0 1 initialWallCache).1 = Some wallY
    /\ (getWallY {[1]} corridor 0 2 initialWallCache).1 = Some wallY'
    /\ -1 <= wallY <= wallY'
    /\ (wallY = -1 \/ 0 <= wallY <= 1)
    /\ (wallY' <= 1 -> wallY = wallY').
Proof.
  apply (getWallY_monotone {[1]} corridor 0 1 2 initialWallCache).
  - intros Heq. simpl in Heq. discriminate Heq.
  - lia.
Defined.

Section Visible.

Variable wallRegions : gset Z.
Variable noReflectRegions : gset Z.
Variable maxWallDistance : Q.

(** X26.  With the cache in step with the map, [updateReflectWall]
    returns, and it leaves the wall reflection visible exactly when the map
    and the character both allow wall reflections, the character does not
    stand on a no-reflection region, it is not transparent (or has a wall
    opacity of its own, other than 0), and its column has a wall tile on
    its own row or above. *)
Theorem wall_reflection_visible_iff
    (map : GameMap) (opts : MapReflect) (char : Character)
    (this r : Sprite) (c : WallCache) :
  in_step wallRegions map c ->
  exists r' c',
    updateReflectWall wallRegions noReflectRegions maxWallDistance
      map opts char this r c = Some (r', c')
    /\ (visible r' = true
        <-> wantsWallReflection noReflectRegions map opts char = true
            /\ exists y', y' <= cy char
                          /\ wallTile wallRegions map (cx char) y').
Proof.
  intros Hstep. unfold updateReflectWall.
  destruct (wantsWallReflection noReflectRegions map opts char) eqn:Hwants;
    cbn [negb].
  2: { eexists _, _. split; [done |]. cbn. split; [done | by intros [? _]]. }
  destruct (getWallY_in_step wallRegions map (cx char) (cy char) c Hstep)
    as (wallY & Hw & Hc).
  destruct (getWallY wallRegions map (cx char) (cy char) c) as [ans c1].
  cbn in Hw. subst ans.
  destruct (Z.ltb_spec wallY 0) as [Hneg | Hpos].
  - eexists _, _. split; [done |]. cbn. split; [done |].
    intros [_ (y' & Hy' & Htile)]. exfalso.
    destruct Hc as [[_ Hno] | ((_ & Hh & _) & _)]; [by apply (Hno y') | lia].
  - eexists _, _. split; [done |].
    assert (Hvis : forall r0, visible (handleReflectFrame this r0) = visible r0).
    { intros r0. unfold handleReflectFrame. by destruct (_ && _). }
    rewrite Hvis.
    assert (Htrue : forall (b : bool) (r1 r2 : Sprite),
              visible r1 = true -> visible r2 = true ->
              visible (if b then r1 else r2) = true)
      by (by intros []).
    rewrite Htrue by done. split; [| done]. intros _. split; [done |].
    destruct Hc as [[-> _] | (Htile & Hle & _)]; [lia |]. by exists wallY.
Qed.

End Visible.

Lemma wall_reflection_visible_iff_witness :
  exists r' c',
    updateReflectWall {[1]} ∅ 20 corridor perspectiveMap walker heroSprite
      blankReflection initialWallCache = Some (r', c')
    /\ (visible r' = true
        <-> wantsWallReflection ∅ corridor perspectiveMap walker = true
            /\ exists y', y' <= cy walker /\ wallTile {[1]} corridor (cx walker) y').
Proof.
  apply (wall_reflection_visible_iff {[1]} ∅ 20 corridor perspectiveMap walker
           heroSprite blankReflection initialWallCache).
  intros Heq. simpl in Heq. discriminate Heq.
Defined.

Section Scale.

Local Open Scope Q_scope.

(** X27.  For a positive [maxWallDistance] the factor of the
    pseudo-perspective mode does not grow with the distance to the wall: a
    character farther from the wall has a reflection at most as large; up
    to distance 1 the factor is 1, the full size. *)
Theorem perspectiveScale_shrinks_with_distance (d1 d2 m : Q) :
  0 < m -> d1 <= d2 ->
  perspectiveScale d2 m <= perspectiveScale d1 m
  /\ (d1 <= 1 -> perspectiveScale d1 m == 1).
Proof.
  intros Hm Hd.
  assert (Hq : (d1 - 1) / m <= (d2 - 1) / m).
  { apply Qmult_le_compat_r; [lra |]. apply Qlt_le_weak, Qinv_lt_0_compat, Hm. }
  assert (Hone : d1 <= 1 -> (d1 - 1) / m <= 0).
  { intros H1. apply Qle_shift_div_r; [done | lra]. }
  unfold perspectiveScale. cbv zeta.
  revert Hq Hone. generalize ((d1 - 1) / m) ((d2 - 1) / m). intros q1 q2 Hq Hone.
  split.
  - destruct (Qlt_le_dec 1 (1 - q2)), (Qlt_le_dec 1 (1 - q1)),
      (Qlt_le_dec (1 - q2) 0), (Qlt_le_dec (1 - q1) 0); lra.
  - intros H1. specialize (Hone H1).
    destruct (Qlt_le_dec 1 (1 - q1)); [reflexivity |].
    destruct (Qlt_le_dec (1 - q1) 0); lra.
Qed.

Lemma perspectiveScale_shrinks_with_distance_witness :
  perspectiveScale 5 20 <= perspectiveScale (1 # 2) 20
  /\ ((1 # 2) <= 1 -> perspectiveScale (1 # 2) 20 == 1).
Proof.
  apply (perspectiveScale_shrinks_with_distance (1 # 2) 5 20); by vm_compute.
Defined.

End Scale.

End MirrorsMore.

(* ===================================================================== *)
(** * Mirrors: what the change commands leave unchanged *)
(* ===================================================================== *)

Module MirrorsCommandsFacts.
Import MirrorsCommands.

(** X28.  [changeEventReflect] on an event named by its id (not 0) sets the
    wall offsets it is not given to the event's floor offsets, not to the
    wall offsets the event had: the values taken for a missing argument are
    read with [reflectFloorXOffset] and [reflectFloorYOffset] for the floor
    and for the wall alike.  The floor offsets, the index, the two switches
    and the opacities not given stay as they were. *)
Theorem change_command_takes_floor_offsets_for_wall
    (trim : string -> string) (thisEventId : Z) (args : ChangeReflectArgs)
    (event : Game_Character) (events : gmap Z Game_Character) :
  args_id args <> 0 ->
  events !! args_id args = Some event ->
  exists event',
    changeEventReflect trim thisEventId args events
    = Some (<[args_id args := event']> events)
    /\ _reflectWallXOff event'
       = default (_reflectFloorXOff event) (args_reflectWallXOffset args)
    /\ _reflectWallYOff event'
       = default (_reflectFloorYOff event) (args_reflectWallYOffset args)
    /\ _reflectFloorXOff event'
       = default (_reflectFloorXOff event) (args_reflectFloorXOffset args)
    /\ _reflectFloorYOff event'
       = default (_reflectFloorYOff event) (args_reflectFloorYOffset args)
    /\ _reflectIndex event' = default (_reflectIndex event) (args_index args)
    /\ _reflectFloor event'
       = default (_reflectFloor event) (args_reflectFloor args)
    /\ _reflectWall event'
       = default (_reflectWall event) (args_reflectWall args)
    /\ (args_reflectFloorOpacity args = None ->
        _reflectFloorOpacity event' = _reflectFloorOpacity event)
    /\ (args_reflectWallOpacity args = None ->
        _reflectWallOpacity event' = _reflectWallOpacity event).
Proof.
  intros Hid Hevent. unfold changeEventReflect, convertChangeReflectArgs.
  rewrite Hevent. cbv zeta.
  destruct (args_reflectWallOpacity args) as [o|] eqn:Ho;
    (eexists; split;
     [ unfold setEventReflect; cbn [val_id];
       apply Z.eqb_neq in Hid; rewrite Hid, Hevent; reflexivity
     | cbn; repeat split; try done; by intros -> ]).
Qed.

(** An event whose wall reflection is shifted, and whose floor reflection
    is not. *)
Definition shiftedEvent : Game_Character :=
  mkChar "Statue" 2 true true None None 0 0 12 (-4) false.

Lemma change_command_takes_floor_offsets_for_wall_witness :
  changeEventReflect (fun name => name) 7 (unchangedArgs 3)
    {[ 3 := shiftedEvent ]}
  = Some {[ 3 := mkChar "Statue" 2 true true None None 0 0 0 0 true ]}
  /\ exists event',
       changeEventReflect (fun name => name) 7 (unchangedArgs 3)
         {[ 3 := shiftedEvent ]}
       = Some (<[args_id (unchangedArgs 3) := event']> {[ 3 := shiftedEvent ]})
       /\ _reflectWallXOff event'
          = default (_reflectFloorXOff shiftedEvent)
                    (args_reflectWallXOffset (unchangedArgs 3))
       /\ _reflectWallYOff event'
          = default (_reflectFloorYOff shiftedEvent)
                    (args_reflectWallYOffset (unchangedArgs 3))
       /\ _reflectFloorXOff event'
          = default (_reflectFloorXOff shiftedEvent)
                    (args_reflectFloorXOffset (unchangedArgs 3))
       /\ _reflectFloorYOff event'
          = default (_reflectFloorYOff shiftedEvent)
                    (args_reflectFloorYOffset (unchangedArgs 3))
       /\ _reflectIndex event'
          = default (_reflectIndex shiftedEvent) (args_index (unchangedArgs 3))
       /\ _reflectFloor event'
          = default (_reflectFloor shiftedEvent)
                    (args_reflectFloor (unchangedArgs 3))
       /\ _reflectWall event'
          = default (_reflectWall shiftedEvent)
                    (args_reflectWall (unchangedArgs 3))
       /\ (args_reflectFloorOpacity (unchangedArgs 3) = None ->
           _reflectFloorOpacity event' = _reflectFloorOpacity shiftedEvent)
       /\ (args_reflectWallOpacity (unchangedArgs 3) = None ->
           _reflectWallOpacity event' = _reflectWallOpacity shiftedEvent).
Proof.
  split.
  - vm_compute. reflexivity.
  - apply (change_command_takes_floor_offsets_for_wall (fun name => name) 7
             (unchangedArgs 3) shiftedEvent {[ 3 := shiftedEvent ]}).
    + by cbn.
    + cbn. apply lookup_insert_eq.
Defined.

(** X29.  [changeEventReflect] with id 0, for the event that runs the
    command, reads the values of the missing arguments from no event (the
    map has no event 0): when the wall opacity is not given the command
    throws, and otherwise the running event is given the stand-in values
    for everything not given (index -1, both reflections off, no floor
    opacity, offsets 0), whatever it had. *)
Theorem change_command_on_this_event_forgets_settings
    (trim : string -> string) (thisEventId : Z) (args : ChangeReflectArgs)
    (event : Game_Character) (events : gmap Z Game_Character) :
  args_id args = 0 ->
  events !! 0 = None ->
  events !! thisEventId = Some event ->
  match args_reflectWallOpacity args with
  | None => changeEventReflect trim thisEventId args events = None
  | Some wallOpacity =>
    changeEventReflect trim thisEventId args events
    = Some (<[thisEventId :=
                mkChar
                  (trim (trim (if String.eqb (args_character args) "" then ""
                               else args_character args)))
                  (default (-1) (args_index args))
                  (default false (args_reflectFloor args))
                  (default false (args_reflectWall args))
                  (match args_reflectFloorOpacity args with
                   | None => None
                   | Some v => opacityOf v
                   end)
                  (opacityOf wallOpacity)
                  (default 0%Q (args_reflectFloorXOffset args))
                  (default 0%Q (args_reflectFloorYOffset args))
                  (default 0%Q (args_reflectWallXOffset args))
                  (default 0%Q (args_reflectWallYOffset args))
                  true]> events)
  end.
Proof.
  intros Hid Hnone Hevent. unfold changeEventReflect, convertChangeReflectArgs.
  rewrite Hid, Hnone. cbv zeta.
  destruct (args_reflectWallOpacity args) as [o|]; [| done].
  unfold setEventReflect. cbn [val_id Z.eqb]. by rewrite Hevent.
Qed.

Lemma change_command_on_this_event_forgets_settings_witness :
  changeEventReflect (fun name => name) 3 (unchangedArgs 0)
    {[ 3 := shiftedEvent ]} = None.
Proof.
  apply (change_command_on_this_event_forgets_settings (fun name => name) 3
           (unchangedArgs 0) shiftedEvent {[ 3 := shiftedEvent ]}).
  - reflexivity.
  - reflexivity.
  - apply lookup_insert_eq.
Defined.

End MirrorsCommandsFacts.

(* ===================================================================== *)
(** * Turn in place: the delay before the step *)
(* ===================================================================== *)

Module TurnInPlaceFacts.
Import TurnInPlace.

Section Delay.

Variable stoppingCooldownAmount : Z.
Variable Game_Player_executeMove : Z -> Game_Player -> Game_Player.

Lemma heldKeyFrames_S delay m st :
  heldKeyFrames delay stoppingCooldownAmount Game_Player_executeMove (S m) st
  = heldKeyFrame delay stoppingCooldownAmount Game_Player_executeMove
      (heldKeyFrames delay stoppingCooldownAmount Game_Player_executeMove m st).
Proof. reflexivity. Qed.

Lemma heldKeyFrames_turning (n : nat) (p : Game_Player) (d : Z) :
  0 < d ->
  isMoving p = false -> getInputDirection p = d -> direction p <> d ->
  forall k, (k < n)%nat ->
    heldKeyFrames (Z.of_nat n) stoppingCooldownAmount Game_Player_executeMove
      (S k) (p, mkTimers 0 0)
    = (setDirection d p, mkTimers (Z.of_nat n - Z.of_nat k) 0).
Proof.
  intros Hd Hstill Hinput Hdir.
  assert (Hpos : Z.ltb 0 d = true) by (by apply Z.ltb_lt).
  induction k as [|k IH]; intros Hk.
  - cbn [heldKeyFrames]. unfold heldKeyFrame, executeMove,
      handleTimeUntilMoveSetup, handleMovementCooldown, decrementTimers.
    cbn. rewrite Hstill, Hinput, ?Hpos. cbn.
    assert (Hne : Z.eqb d (direction p) = false) by (apply Z.eqb_neq; congruence).
    rewrite Hne. cbn.
    destruct (Z.leb_spec (Z.of_nat n) 0) as [Hle | _]; [lia |].
    f_equal. f_equal. lia.
  - rewrite heldKeyFrames_S, IH by lia.
    unfold heldKeyFrame, executeMove, handleTimeUntilMoveSetup,
      handleMovementCooldown, decrementTimers.
    cbn. rewrite Hstill, Hinput, ?Hpos. cbn.
    destruct (Z.ltb_spec 0 (Z.of_nat n - Z.of_nat k)) as [_ | Hle]; [| lia].
    cbn. rewrite Z.eqb_refl. cbn.
    destruct (Z.leb_spec (Z.of_nat n - Z.of_nat k - 1) 0) as [Hle | _]; [lia |].
    f_equal. f_equal. lia.
Qed.

(** X30.  With the timers at rest and no touch destination, a player who
    stands still and presses a direction other than the one faced turns at
    once and steps [delay] frames later: for a delay of [n >= 1] frames, each of the first [n]
    frames with the key held only sets the direction, and on the next frame
    the engine's [executeMove] is called, for the player as turned. *)
Theorem turn_in_place_delays_step (n : nat) (p : Game_Player) (d : Z) :
  (1 <= n)%nat -> 0 < d ->
  isMoving p = false -> getInputDirection p = d -> direction p <> d ->
  (forall k, (k < n)%nat ->
     heldKeyFrames (Z.of_nat n) stoppingCooldownAmount Game_Player_executeMove
       (S k) (p, mkTimers 0 0)
     = (setDirection d p, mkTimers (Z.of_nat n - Z.of_nat k) 0))
  /\ heldKeyFrames (Z.of_nat n) stoppingCooldownAmount Game_Player_executeMove
       (S n) (p, mkTimers 0 0)
     = (Game_Player_executeMove d (setDirection d p), mkTimers 0 0).
Proof.
  intros Hn Hd Hstill Hinput Hdir.
  assert (Hpos : Z.ltb 0 d = true) by (by apply Z.ltb_lt).
  pose proof (heldKeyFrames_turning n p d Hd Hstill Hinput Hdir) as Hturn.
  split; [exact Hturn |].
  destruct n as [|n]; [lia |].
  rewrite heldKeyFrames_S, (Hturn n) by lia.
  unfold heldKeyFrame, executeMove, handleTimeUntilMoveSetup,
    handleMovementCooldown, decrementTimers.
  cbn. rewrite Hstill, Hinput, ?Hpos. cbn.
  destruct (Z.ltb_spec 0 (Z.of_nat (S n) - Z.of_nat n)) as [_ | Hle]; [| lia].
  cbn. rewrite Z.eqb_refl. cbn.
  destruct (Z.leb_spec (Z.of_nat (S n) - Z.of_nat n - 1) 0) as [_ | Hgt];
    [| lia].
  f_equal. f_equal. lia.
Qed.

End Delay.

(** The engine's [executeMove], as far as the plugin's fields show it: the
    player faces the direction and is moving. *)
Definition stepForward (d : Z) (p : Game_Player) : Game_Player :=
  mkPlayer d (getInputDirection p) true.

(** A player facing down (2) who presses right (6). *)
Definition facingDown : Game_Player := mkPlayer 2 6 false.

Lemma turn_in_place_delays_step_witness :
  (forall k, (k < 6)%nat ->
     heldKeyFrames (Z.of_nat 6) 6 stepForward (S k) (facingDown, mkTimers 0 0)
     = (setDirection 6 facingDown, mkTimers (Z.of_nat 6 - Z.of_nat k) 0))
  /\ heldKeyFrames (Z.of_nat 6) 6 stepForward 7 (facingDown, mkTimers 0 0)
     = (stepForward 6 (setDirection 6 facingDown), mkTimers 0 0).
Proof.
  apply (turn_in_place_delays_step 6 stepForward 6 facingDown 6).
  - lia.
  - lia.
  - reflexivity.
  - reflexivity.
  - discriminate.
Defined.

End TurnInPlaceFacts.
